(** * Whack-a-mole: the game logic of [src/index.tsx]

    The [App] component keeps five pieces of React state ([score],
    [timeLeft], [isActive], [holeContents], [gameOverReason]), one ref
    ([moleTimeouts]) and three kinds of browser timers: the one-second
    game clock, the spawn interval and one hide timeout per spawn.

    The embedding is explicit state passing.  A [State] holds the React
    state, the ref, the handles kept by the effect clean-ups and the
    browser's table of pending timers.  Every handler and every timer
    callback of the component is a function on [State]; [step] runs one
    of them and then the effects whose dependencies changed, until the
    component is at rest.  Handlers are atomic (the JavaScript event loop
    runs one callback at a time) and a handler sees the state of the last
    render.  Numbers are integers ([Z]); the two [Math.random()] draws of
    a spawn are rationals handed to the callback, and their product with
    the list length is taken exactly.  Every state updater runs once,
    as in a production build.  The audio cues do not touch the game
    state and are left out. *)

From Stdlib Require Import ZArith QArith Qround Lia.
From stdpp Require Import base option list gmap fin_maps strings pretty.

Local Open Scope Z_scope.

(** ** Constants (lines 8-12) *)

Definition GAME_DURATION : Z := 60.
Definition GRID_SIZE : nat := 9.
Definition BOMB_CHANCE : Q := 2 # 10.

(** ** Data *)

(** [type HoleContent = 'empty' | 'mole' | 'bomb'] *)
Inductive HoleContent : Set := empty | mole | bomb.

(** The two string values of [gameOverReason]; [null] is [None]. *)
Inductive GameOverReason : Set := reason_time | reason_bomb.

#[global] Instance HoleContent_eq_dec : EqDecision HoleContent.
Proof. solve_decision. Defined.

#[global] Instance GameOverReason_eq_dec : EqDecision GameOverReason.
Proof. solve_decision. Defined.

(** A JavaScript array of hole contents.  [cells] are the indexed
    elements, [None] standing for [undefined] (a hole left by a write
    past the end reads as [undefined] too).  [named] holds the own
    properties whose key is not an array index, such as ["-1"]: writing
    [a[-1] = v] creates one and leaves [length] alone. *)
Record HoleArray : Type := mkArray {
  cells : list (option HoleContent);
  named : gmap Z HoleContent
}.

(** Array indices are the integers from 0 to 2^32 - 2. *)
Definition is_array_index (i : Z) : bool := (0 <=? i) && (i <? 2 ^ 32 - 1).

(** [a[i]] *)
Definition arr_get (a : HoleArray) (i : Z) : option HoleContent :=
  if is_array_index i then mjoin (cells a !! Z.to_nat i) else named a !! i.

(** [a[i] = v]: in range it overwrites, past the end it extends the
    array (the skipped positions read [undefined]), and for a key that
    is not an array index it sets a named property. *)
Definition arr_set (a : HoleArray) (i : Z) (v : HoleContent) : HoleArray :=
  if is_array_index i then
    let n := Z.to_nat i in
    if (n <? length (cells a))%nat
    then mkArray (<[n := Some v]> (cells a)) (named a)
    else mkArray (cells a ++ replicate (n - length (cells a)) None ++ [Some v])
                 (named a)
  else mkArray (cells a) (<[i := v]> (named a)).

(** [[...a]]: a fresh array with the indexed elements only. *)
Definition spread (a : HoleArray) : HoleArray := mkArray (cells a) ∅.

(** [new Array(GRID_SIZE).fill('empty')] *)
Definition emptyGrid : HoleArray := mkArray (replicate GRID_SIZE (Some empty)) ∅.

(** [l[k]] for a list read with a number. *)
Definition js_nth {A} (l : list A) (k : Z) : option A :=
  if 0 <=? k then l !! Z.to_nat k else None.

(** The callbacks handed to [setTimeout] and [setInterval]:
    the clock's [setTimeLeft(prevTime => prevTime - 1)] (line 165),
    the spawn tick (line 176) and the hide callback, which captures
    [randomIndex] and [content] (line 194). *)
Inductive Callback : Set :=
  | ClockTick
  | PopTick
  | HideHole (randomIndex : Z) (content : HoleContent).

Record State : Type := mkState {
  score : Z;
  timeLeft : Z;
  isActive : bool;
  holeContents : HoleArray;
  gameOverReason : option GameOverReason;
  moleTimeouts : list nat;          (* moleTimeouts.current *)
  timerId : option nat;             (* held by the clean-up of the clock effect *)
  popInterval : option nat;         (* held by the clean-up of the popping effect *)
  timers : gmap nat Callback;       (* pending timeouts and intervals *)
  nextTimer : nat                   (* next handle the browser gives out *)
}.

(** The state after the first render and its effects: both effects
    return at [if (!isActive) return], so no timer is pending. *)
Definition initial : State :=
  mkState 0 GAME_DURATION false emptyGrid None [] None None ∅ 1.

(** *** State setters *)

Definition setScore (f : Z → Z) (st : State) : State :=
  mkState (f (score st)) (timeLeft st) (isActive st) (holeContents st)
    (gameOverReason st) (moleTimeouts st) (timerId st) (popInterval st)
    (timers st) (nextTimer st).

Definition setTimeLeft (f : Z → Z) (st : State) : State :=
  mkState (score st) (f (timeLeft st)) (isActive st) (holeContents st)
    (gameOverReason st) (moleTimeouts st) (timerId st) (popInterval st)
    (timers st) (nextTimer st).

Definition setIsActive (b : bool) (st : State) : State :=
  mkState (score st) (timeLeft st) b (holeContents st)
    (gameOverReason st) (moleTimeouts st) (timerId st) (popInterval st)
    (timers st) (nextTimer st).

Definition setHoleContents (f : HoleArray → HoleArray) (st : State) : State :=
  mkState (score st) (timeLeft st) (isActive st) (f (holeContents st))
    (gameOverReason st) (moleTimeouts st) (timerId st) (popInterval st)
    (timers st) (nextTimer st).

Definition setGameOverReason (r : option GameOverReason) (st : State) : State :=
  mkState (score st) (timeLeft st) (isActive st) (holeContents st)
    r (moleTimeouts st) (timerId st) (popInterval st)
    (timers st) (nextTimer st).

Definition setMoleTimeouts (l : list nat) (st : State) : State :=
  mkState (score st) (timeLeft st) (isActive st) (holeContents st)
    (gameOverReason st) l (timerId st) (popInterval st)
    (timers st) (nextTimer st).

Definition setTimerId (h : option nat) (st : State) : State :=
  mkState (score st) (timeLeft st) (isActive st) (holeContents st)
    (gameOverReason st) (moleTimeouts st) h (popInterval st)
    (timers st) (nextTimer st).

Definition setPopInterval (h : option nat) (st : State) : State :=
  mkState (score st) (timeLeft st) (isActive st) (holeContents st)
    (gameOverReason st) (moleTimeouts st) (timerId st) h
    (timers st) (nextTimer st).

(** *** The browser's timers *)

(** [setTimeout(cb, _)] and [setInterval(cb, _)]: a fresh handle, and
    the callback is pending under it. *)
Definition setTimeout (cb : Callback) (st : State) : nat * State :=
  (nextTimer st,
   mkState (score st) (timeLeft st) (isActive st) (holeContents st)
     (gameOverReason st) (moleTimeouts st) (timerId st) (popInterval st)
     (<[nextTimer st := cb]> (timers st)) (S (nextTimer st))).

(** [clearTimeout(id)] and [clearInterval(id)]; a handle that is not
    pending is ignored. *)
Definition clearTimeout (id : nat) (st : State) : State :=
  mkState (score st) (timeLeft st) (isActive st) (holeContents st)
    (gameOverReason st) (moleTimeouts st) (timerId st) (popInterval st)
    (delete id (timers st)) (nextTimer st).

(** [moleTimeouts.current.forEach(clearTimeout)] *)
Definition clearMoleTimeouts (st : State) : State :=
  foldl (λ s id, clearTimeout id s) st (moleTimeouts st).

(** ** Handlers and callbacks *)

(** [startGame] (lines 217-223) *)
Definition startGame (st : State) : State :=
  setHoleContents (λ _, emptyGrid)
    (setGameOverReason None
      (setIsActive true
        (setTimeLeft (λ _, GAME_DURATION)
          (setScore (λ _, 0) st)))).

(** [whackItem] (lines 225-244).  The closure reads [holeContents] and
    [isActive] as of the last render; the two updaters run on the
    current state. *)
Definition whackItem_of (rendered : State) (index : Z) (st : State) : State :=
  if bool_decide (arr_get (holeContents rendered) index = Some empty)
     || negb (isActive rendered)
  then st
  else
    let content := arr_get (holeContents rendered) index in
    let st1 :=
      if bool_decide (content = Some mole) then setScore (λ prevScore, prevScore + 10) st
      else if bool_decide (content = Some bomb) then setScore (λ prevScore, prevScore - 10) st
      else st in
    setHoleContents (λ prev, arr_set (spread prev) index empty) st1.

(** The handler of the current render. *)
Definition whackItem (index : Z) (st : State) : State := whackItem_of st index st.

(** The clock's timeout callback (line 166). *)
Definition clockTick (st : State) : State :=
  setTimeLeft (λ prevTime, prevTime - 1) st.

(** [emptyHolesIndexes] (lines 178-180) *)
Definition emptyHolesIndexes (currentHoles : HoleArray) : list Z :=
  filter (λ index, index ≠ -1)
    (imap (λ index content,
             if bool_decide (content = Some empty) then Z.of_nat index else -1)
          (cells currentHoles)).

(** [x < y] on rationals, as a test. *)
Definition Qlt_bool (x y : Q) : bool := negb (Qle_bool y x).

(** What [Math.random()] may return: a number from 0 up to, but not
    including, 1. *)
Definition is_draw (r : Q) : bool := Qle_bool 0 r && Qlt_bool r 1.

(** [Math.floor(Math.random() * emptyHolesIndexes.length)] *)
Definition randomPosition (r1 : Q) (n : nat) : Z :=
  Qfloor (r1 * inject_Z (Z.of_nat n)).

(** [Math.random() < BOMB_CHANCE ? 'bomb' : 'mole'] *)
Definition randomContent (r2 : Q) : HoleContent :=
  let isBomb := Qlt_bool r2 BOMB_CHANCE in
  if isBomb then bomb else mole.

(** The spawn tick (lines 176-207) with its two draws.  [None] is the
    branch where [emptyHolesIndexes[...]] is [undefined], which no draw
    in [0,1) reaches (lemma [popTick_total] below). *)
Definition popTick (r1 r2 : Q) (st : State) : option State :=
  let currentHoles := holeContents st in
  let emptyIdx := emptyHolesIndexes currentHoles in
  if bool_decide (length emptyIdx = 0%nat) then Some st
  else
    match js_nth emptyIdx (randomPosition r1 (length emptyIdx)) with
    | None => None
    | Some randomIndex =>
        let content := randomContent r2 in
        let newContents := arr_set (spread currentHoles) randomIndex content in
        let '(hideTimeout, st1) := setTimeout (HideHole randomIndex content) st in
        let st2 := setMoleTimeouts (moleTimeouts st1 ++ [hideTimeout]) st1 in
        Some (setHoleContents (λ _, newContents) st2)
    end.

(** The hide callback (lines 195-201). *)
Definition hideHole (randomIndex : Z) (content : HoleContent) (st : State) : State :=
  setHoleContents
    (λ prev,
       let updatedContents := spread prev in
       if bool_decide (arr_get updatedContents randomIndex = Some content)
       then arr_set updatedContents randomIndex empty
       else updatedContents)
    st.

(** ** Effects *)

(** The dependency lists of the two game effects (lines 170 and 214). *)
Definition timerDeps (st : State) : bool * Z * option GameOverReason :=
  (isActive st, timeLeft st, gameOverReason st).

Definition poppingDeps (st : State) : bool := isActive st.

(** Clean-up of the clock effect: [() => clearTimeout(timerId)]
    (line 169), present only when the last run scheduled a timeout. *)
Definition timerCleanup (st : State) : State :=
  match timerId st with
  | Some id => setTimerId None (clearTimeout id st)
  | None => st
  end.

(** Clean-up of the popping effect (lines 209-213), present only when
    the last run set the interval. *)
Definition poppingCleanup (st : State) : State :=
  match popInterval st with
  | Some id =>
      setPopInterval None
        (setMoleTimeouts [] (clearMoleTimeouts (clearTimeout id st)))
  | None => st
  end.

(** Body of the clock effect (lines 152-168).  It reads the values of
    the render [rendered]; its updates go to the current state. *)
Definition timerEffect (rendered : State) (st : State) : State :=
  if negb (isActive rendered) then st
  else if timeLeft rendered <=? 0 then
    let st1 := setIsActive false st in
    let st2 := clearMoleTimeouts st1 in
    let st3 := setHoleContents (λ _, emptyGrid) st2 in
    if bool_decide (gameOverReason rendered = None)
    then setGameOverReason (Some reason_time) st3
    else st3
  else
    let '(id, st1) := setTimeout ClockTick st in
    setTimerId (Some id) st1.

(** Body of the popping effect (lines 173-207). *)
Definition poppingEffect (rendered : State) (st : State) : State :=
  if negb (isActive rendered) then st
  else
    let '(id, st1) := setTimeout PopTick st in
    setPopInterval (Some id) st1.

(** One commit: [prev] is the previous render, [rendered] the new one.
    React first runs the clean-ups of the effects whose dependencies
    changed, then their bodies, in the order of declaration. *)
Definition commitEffects (prev rendered : State) : State :=
  let timerChanged := negb (bool_decide (timerDeps prev = timerDeps rendered)) in
  let poppingChanged := negb (bool_decide (poppingDeps prev = poppingDeps rendered)) in
  let st1 := if timerChanged then timerCleanup rendered else rendered in
  let st2 := if poppingChanged then poppingCleanup st1 else st1 in
  let st3 := if timerChanged then timerEffect rendered st2 else st2 in
  if poppingChanged then poppingEffect rendered st3 else st3.

(** A handler took the component from [prev] to [next]: commit, and
    commit once more for the updates made by the effects themselves.
    After that nothing is left to run ([settle_at_rest]). *)
Definition settle (prev next : State) : State :=
  let st1 := commitEffects prev next in
  commitEffects next st1.

(** ** The event loop *)

(** What can happen to the component: a click on the start button, a
    click on the hole rendered for [index], or the browser firing the
    pending timer [id] (a spawn tick takes its two random draws). *)
Inductive Event : Type :=
  | Start
  | Whack (index : Z)
  | Fire (id : nat) (r1 r2 : Q).

(** The handler an event runs; [None] when the event cannot happen:
    the start button is disabled while the game is active (line 280),
    holes are rendered for the indices of [holeContents] only
    (line 263), a timer fires only while pending, and [Math.random()]
    lies in [0,1). *)
Definition handle (ev : Event) (st : State) : option State :=
  match ev with
  | Start => if isActive st then None else Some (startGame st)
  | Whack index =>
      if (0 <=? index) && (index <? Z.of_nat (length (cells (holeContents st))))
      then Some (whackItem index st) else None
  | Fire id r1 r2 =>
      match timers st !! id with
      | None => None
      | Some ClockTick => Some (clockTick (clearTimeout id st))
      | Some PopTick =>
          if is_draw r1 && is_draw r2 then popTick r1 r2 st else None
      | Some (HideHole randomIndex content) =>
          Some (hideHole randomIndex content (clearTimeout id st))
      end
  end.

Definition step (st : State) (ev : Event) : option State :=
  match handle ev st with
  | Some st' => Some (settle st st')
  | None => None
  end.

Fixpoint run (st : State) (evs : list Event) : option State :=
  match evs with
  | [] => Some st
  | ev :: evs' =>
      match step st ev with
      | Some st' => run st' evs'
      | None => None
      end
  end.

Definition reachable (st : State) : Prop := ∃ evs, run initial evs = Some st.

(** ** Statements about the event loop *)

(** The transitions a cell may make in one step: it stays, it comes up
    from empty, or it goes back to empty. *)
Definition cell_step (c c' : HoleContent) : Prop :=
  c = c' ∨ (c = empty ∧ (c' = mole ∨ c' = bomb))
         ∨ ((c = mole ∨ c = bomb) ∧ c' = empty).

(** [ids.forEach(clearTimeout)] on the timer table alone. *)
Definition deleteAll (ids : list nat) (m : gmap nat Callback) : gmap nat Callback :=
  foldl (λ m' id, delete id m') m ids.

(** The grid as rendered: nine cells, each with a content, and no
    stray property. *)
Definition grid_ok (a : HoleArray) : Prop :=
  length (cells a) = GRID_SIZE ∧
  (∀ n, (n < GRID_SIZE)%nat → ∃ c, cells a !! n = Some (Some c)) ∧
  named a = ∅.

(** What holds of the component between any two events. *)
Record wf (st : State) : Prop := mkWf {
  wf_grid : grid_ok (holeContents st);
  wf_reason : gameOverReason st = None ∨ gameOverReason st = Some reason_time;
  wf_hides : ∀ id i c,
    timers st !! id = Some (HideHole i c) → id ∈ moleTimeouts st;
  wf_fresh : ∀ id, is_Some (timers st !! id) → (id < nextTimer st)%nat;
  wf_running : isActive st = true →
    gameOverReason st = None ∧ 0 < timeLeft st ∧
    ∃ c p, timerId st = Some c ∧ popInterval st = Some p ∧
           timers st !! c = Some ClockTick ∧ timers st !! p = Some PopTick ∧
           (∀ id, timers st !! id = Some ClockTick → id = c) ∧
           (∀ id, timers st !! id = Some PopTick → id = p);
  wf_idle : isActive st = false →
    timers st = ∅ ∧ timerId st = None ∧ popInterval st = None ∧
    moleTimeouts st = [] ∧ holeContents st = emptyGrid
}.

(** ** Sample runs

    Concrete runs of the event loop, used to evaluate the statements
    below.  Handles are the model's own (the timers of the music are
    not counted): after [Start] the clock timeout has handle 1 and the
    spawn interval handle 2; the first spawn therefore gets handle 3. *)

(** A spawn whose draws pick the first empty hole and a mole. *)
Definition popMole : Event := Fire 2 0 (1 # 2).

(** A spawn whose draws pick the first empty hole and a bomb. *)
Definition popBomb : Event := Fire 2 0 (1 # 10).

(** A running game with a mole, respectively a bomb, in hole 0. *)
Definition moleUp : State := default initial (run initial [Start; popMole]).
Definition bombUp : State := default initial (run initial [Start; popBomb]).

(** A running game with nothing up. *)
Definition started : State := default initial (run initial [Start]).

(** The race of the hide timeout: a spawn puts something in hole 0
    (hide timeout 3), the player clears the hole, and a second spawn
    fills hole 0 again (hide timeout 4) while timeout 3 is pending. *)
Definition respawned (first second : Event) : State :=
  default initial (run initial [Start; first; Whack 0; second]).

(** A game one second before the end: [Start] and 59 clock ticks.  The
    first clock timeout has handle 1, the later ones 3, 4, ... *)
Definition lastSecondEvents : list Event :=
  Start :: Fire 1 0 0 :: map (λ id, Fire id 0 0) (seq 3 58).


(** The five values a render shows. *)
Definition shown (st : State) :
    Z * Z * bool * HoleArray * option GameOverReason :=
  (score st, timeLeft st, isActive st, holeContents st, gameOverReason st).

(** ** The steps of a well-formed component

    What [step] does from a state that satisfies [wf], event by event,
    with the resulting state written out. *)
Inductive step_shape (st : State) : Event → State → Prop :=
  | shape_start :
      isActive st = false →
      step_shape st Start
        (mkState 0 GAME_DURATION true emptyGrid None []
           (Some (nextTimer st)) (Some (S (nextTimer st)))
           (<[S (nextTimer st) := PopTick]> (<[nextTimer st := ClockTick]> ∅))
           (S (S (nextTimer st))))
  | shape_whack index :
      0 ≤ index < Z.of_nat GRID_SIZE →
      step_shape st (Whack index) (whackItem index st)
  | shape_clock id r1 r2 :
      isActive st = true → timers st !! id = Some ClockTick →
      1 < timeLeft st →
      step_shape st (Fire id r1 r2)
        (mkState (score st) (timeLeft st - 1) true (holeContents st)
           (gameOverReason st) (moleTimeouts st) (Some (nextTimer st))
           (popInterval st)
           (<[nextTimer st := ClockTick]> (delete id (delete id (timers st))))
           (S (nextTimer st)))
  | shape_expiry id r1 r2 :
      isActive st = true → timers st !! id = Some ClockTick →
      timeLeft st = 1 →
      step_shape st (Fire id r1 r2)
        (mkState (score st) 0 false emptyGrid (Some reason_time) []
           None None ∅ (nextTimer st))
  | shape_full id r1 r2 :
      isActive st = true → timers st !! id = Some PopTick →
      emptyHolesIndexes (holeContents st) = [] →
      step_shape st (Fire id r1 r2) st
  | shape_spawn id r1 r2 k :
      isActive st = true → timers st !! id = Some PopTick →
      is_draw r1 = true → is_draw r2 = true →
      js_nth (emptyHolesIndexes (holeContents st))
        (randomPosition r1 (length (emptyHolesIndexes (holeContents st)))) = Some k →
      k ∈ emptyHolesIndexes (holeContents st) →
      step_shape st (Fire id r1 r2)
        (mkState (score st) (timeLeft st) (isActive st)
           (arr_set (spread (holeContents st)) k (randomContent r2))
           (gameOverReason st) (moleTimeouts st ++ [nextTimer st])
           (timerId st) (popInterval st)
           (<[nextTimer st := HideHole k (randomContent r2)]> (timers st))
           (S (nextTimer st)))
  | shape_hide id r1 r2 i c :
      isActive st = true → timers st !! id = Some (HideHole i c) →
      step_shape st (Fire id r1 r2) (hideHole i c (clearTimeout id st)).

(** ** Unmounting

    When the component unmounts React runs the clean-up of every
    effect, in the order of declaration: the one that clears the mole
    timeouts (lines 145-149), the clock's (line 169) and the popping
    effect's (lines 209-213).  The music's clean-up comes first and
    touches none of these timers. *)
Definition unmount (st : State) : State :=
  poppingCleanup (timerCleanup (clearMoleTimeouts st)).

(** The number of holes that show something (for which the render
    computes [isUp], line 264). *)
Definition upCount (a : HoleArray) : nat :=
  length (filter (λ content, content ≠ Some empty) (cells a)).

(** ** Rendering (lines 246-285)

    The parts of the markup that depend on the state.  Numbers are
    written in decimal, as a template literal or a text child does for
    an integer. *)

(** [gameOverReason !== null] *)
Definition isGameEnded (st : State) : bool :=
  negb (bool_decide (gameOverReason st = None)).

(** [getGameOverMessage] (lines 248-253) *)
Definition getGameOverMessage (st : State) : string :=
  if bool_decide (gameOverReason st = Some reason_time)
  then "게임 종료! 최종 점수: " +:+ pretty (score st)
  else "".

(** A content as the string it is. *)
Definition contentString (content : HoleContent) : string :=
  match content with
  | empty => "empty"
  | mole => "mole"
  | bomb => "bomb"
  end.

(** The attributes of one hole (lines 264-274). *)
Record HoleView : Type := mkHoleView {
  className : string;
  ariaLabel : string;
  ariaPressed : bool
}.

Definition renderHole (content : HoleContent) (index : nat) : HoleView :=
  let isUp := negb (bool_decide (content = empty)) in
  let itemType := if isUp then contentString content else "hole" in
  mkHoleView
    ("hole " +:+ (if isUp then "up" else "") +:+ " " +:+ contentString content)
    (itemType +:+ " at position " +:+ pretty (index + 1)%nat)
    isUp.

Record View : Type := mkView {
  containerClass : string;
  scoreText : string;
  scoreLabel : string;
  timeText : string;
  timeLabel : string;
  holes : list HoleView;
  buttonDisabled : bool;
  buttonText : string;
  finalScore : option string      (* the [h2], when it is rendered *)
}.

(** The render of a state all of whose cells hold a content; [None]
    for an array with an [undefined] cell, which is not modelled. *)
Definition render (st : State) : option View :=
  contents ← mapM id (cells (holeContents st));
  Some (mkView
    ("game-container " +:+ (if isActive st then "active" else ""))
    ("점수: " +:+ pretty (score st))
    ("Score is " +:+ pretty (score st))
    ("시간: " +:+ pretty (timeLeft st))
    ("Time left is " +:+ pretty (timeLeft st) +:+ " seconds")
    (imap (λ index content, renderHole content index) contents)
    (isActive st)
    (if isGameEnded st then "다시하기" else "시작")
    (if isGameEnded st then Some (getGameOverMessage st) else None)).

(** ** Background music (lines 76-141)

    The music keeps its own refs: the audio context, the handle of the
    note interval and the index of the next note.  Its intervals are
    listed in a table of their own, [musicIntervals]; they are the only
    timers the music sets.  What the browser decides is an input:
    whether [new AudioContext()] succeeds and in which state the
    context is. *)

(** [AudioContext.state] *)
Inductive AudioContextState : Set := suspended | running | closed.

#[global] Instance AudioContextState_eq_dec : EqDecision AudioContextState.
Proof. solve_decision. Defined.

Record Audio : Type := mkAudio {
  audioContext : option AudioContextState;  (* audioContextRef.current, with its state *)
  musicIntervalRef : option nat;            (* musicIntervalRef.current *)
  noteIndexRef : nat;                       (* noteIndexRef.current *)
  musicIntervals : gset nat;                (* note intervals pending in the browser *)
  nextInterval : nat                        (* next handle the browser gives out *)
}.

Definition initialAudio : Audio := mkAudio None None 0 ∅ 1.

(** G4, C5, E5, G5, E5, C5, G4 and a rest (line 96). *)
Definition melody : list (option Q) :=
  [Some (39200 # 100); Some (52325 # 100); Some (65926 # 100);
   Some (78399 # 100); Some (65926 # 100); Some (52325 # 100);
   Some (39200 # 100); None].

(** A handle in a condition, [if (musicIntervalRef.current)]: it
    counts when it is set and not 0. *)
Definition truthy (h : option nat) : option nat :=
  match h with
  | Some id => if bool_decide (id = 0%nat) then None else Some id
  | None => None
  end.

(** [playMusic] (lines 77-121).  [created] is what
    [new AudioContext()] would give now: the state of the new context,
    or [None] when the constructor throws. *)
Definition playMusic (created : option AudioContextState) (au : Audio) : Audio :=
  let context :=
    match audioContext au with
    | Some c => Some c
    | None => created
    end in
  match context with
  | None => au
  | Some c =>
      let pending :=
        match truthy (musicIntervalRef au) with
        | Some id => musicIntervals au ∖ {[id]}
        | None => musicIntervals au
        end in
      mkAudio (Some c) (Some (nextInterval au)) (noteIndexRef au)
        ({[nextInterval au]} ∪ pending) (S (nextInterval au))
  end.

(** [stopMusic] (lines 123-128) *)
Definition stopMusic (au : Audio) : Audio :=
  match truthy (musicIntervalRef au) with
  | Some id =>
      mkAudio (audioContext au) None (noteIndexRef au)
        (musicIntervals au ∖ {[id]}) (nextInterval au)
  | None => au
  end.

(** The note interval's callback (lines 100-120): the frequency of the
    oscillator it starts, if it starts one, and the refs afterwards. *)
Definition musicNote (au : Audio) : option Q * Audio :=
  let freq := mjoin (melody !! noteIndexRef au) in
  let au' :=
    mkAudio (audioContext au) (musicIntervalRef au)
      ((noteIndexRef au + 1) mod length melody)
      (musicIntervals au) (nextInterval au) in
  (match freq with
   | Some f =>
       if negb (Qeq_bool f 0) && bool_decide (audioContext au = Some running)
       then Some f else None
   | None => None
   end, au').

(** The music effect (lines 131-141) when [isActive] has changed to
    [active]: the clean-up of its last run, then its body. *)
Definition musicEffect (active : bool) (created : option AudioContextState)
    (au : Audio) : Audio :=
  let au1 := stopMusic au in
  if active then playMusic created au1 else stopMusic au1.

(** The page: the game and its music.  A game event runs the music
    effect when it changes [isActive]; a note interval fires; the
    browser moves the audio context to another state. *)
Inductive PageEvent : Type :=
  | Game (ev : Event) (created : option AudioContextState)
  | MusicTick (id : nat)
  | ContextChange (s : AudioContextState).

Definition pageStep (sa : State * Audio) (pe : PageEvent) : option (State * Audio) :=
  match pe with
  | Game ev created =>
      match step sa.1 ev with
      | Some st' =>
          Some (st', if bool_decide (isActive st' = isActive sa.1) then sa.2
                     else musicEffect (isActive st') created sa.2)
      | None => None
      end
  | MusicTick id =>
      if bool_decide (id ∈ musicIntervals sa.2)
      then Some (sa.1, (musicNote sa.2).2) else None
  | ContextChange s =>
      match audioContext sa.2 with
      | Some _ =>
          Some (sa.1, mkAudio (Some s) (musicIntervalRef sa.2) (noteIndexRef sa.2)
                        (musicIntervals sa.2) (nextInterval sa.2))
      | None => None
      end
  end.

Fixpoint pageRun (sa : State * Audio) (pes : list PageEvent) : option (State * Audio) :=
  match pes with
  | [] => Some sa
  | pe :: pes' =>
      match pageStep sa pe with
      | Some sa' => pageRun sa' pes'
      | None => None
      end
  end.



(** The refs after [k] more notes. *)
Definition afterNotes (k : nat) (au : Audio) : Audio :=
  Nat.iter k (λ a, (musicNote a).2) au.

(** A page in the middle of a game with the music playing. *)
Definition playingEvents : list PageEvent :=
  [Game Start (Some suspended); ContextChange running;
   MusicTick 1; MusicTick 1; Game popBomb None].

Definition playing : State * Audio :=
  default (initial, initialAudio) (pageRun (initial, initialAudio) playingEvents).

(** ** Arrays: reading after writing *)

Section Arrays.
Implicit Types (a : HoleArray) (i j : Z) (v : HoleContent).

Lemma is_array_index_spec i :
  is_array_index i = true ↔ 0 ≤ i < 2 ^ 32 - 1.
Proof. unfold is_array_index. rewrite andb_true_iff. lia. Qed.

Lemma arr_get_set_eq a i v : arr_get (arr_set a i v) i = Some v.
Proof.
  unfold arr_get, arr_set.
  destruct (is_array_index i) eqn:Hi; simpl.
  - destruct (Z.to_nat i <? length (cells a))%nat eqn:Hlt; simpl.
    + apply Nat.ltb_lt in Hlt. by rewrite list_lookup_insert_eq.
    + apply Nat.ltb_ge in Hlt.
      rewrite lookup_app_r by lia.
      rewrite lookup_app_r by (rewrite length_replicate; lia).
      rewrite length_replicate.
      by replace (Z.to_nat i - length (cells a)
                  - (Z.to_nat i - length (cells a)))%nat with 0%nat by lia.
  - apply lookup_insert_eq.
Qed.

Lemma arr_get_set_ne a i j v :
  i ≠ j → arr_get (arr_set a i v) j = arr_get a j.
Proof.
  intros Hne. unfold arr_get, arr_set.
  destruct (is_array_index i) eqn:Hi, (is_array_index j) eqn:Hj; simpl;
    try rewrite Hj; try done.
  - apply is_array_index_spec in Hi, Hj.
    assert (Z.to_nat i ≠ Z.to_nat j) as Hn by lia.
    destruct (Z.to_nat i <? length (cells a))%nat eqn:Hlt; simpl.
    + by rewrite list_lookup_insert_ne.
    + apply Nat.ltb_ge in Hlt.
      destruct (decide (Z.to_nat j < length (cells a))%nat) as [Hj'|Hj'].
      * by rewrite lookup_app_l.
      * rewrite (lookup_ge_None_2 (cells a)) by lia.
        rewrite lookup_app_r by lia.
        destruct (decide (Z.to_nat j < Z.to_nat i)%nat).
        -- rewrite lookup_app_l by (rewrite length_replicate; lia).
           by rewrite lookup_replicate_2 by lia.
        -- rewrite lookup_ge_None_2; [done|].
           rewrite length_app, length_replicate. simpl. lia.
  - destruct (Z.to_nat i <? length (cells a))%nat; by simpl.
  - by rewrite lookup_insert_ne.
Qed.

Lemma arr_get_spread a j :
  is_array_index j = true → arr_get (spread a) j = arr_get a j.
Proof. intros Hj. unfold arr_get, spread. by rewrite Hj. Qed.

Lemma arr_get_Some_lt a j v :
  named a = ∅ → arr_get a j = Some v →
  0 ≤ j < Z.of_nat (length (cells a)).
Proof.
  unfold arr_get. intros Hn.
  destruct (is_array_index j) eqn:Hj.
  - apply is_array_index_spec in Hj.
    destruct (cells a !! Z.to_nat j) eqn:Hl; [|done].
    apply lookup_lt_Some in Hl. intros _. lia.
  - by rewrite Hn, lookup_empty.
Qed.

(** A write inside the array keeps its length. *)
Lemma arr_set_in_range a i v :
  0 ≤ i < Z.of_nat (length (cells a)) → i < 2 ^ 32 - 1 →
  arr_set a i v = mkArray (<[Z.to_nat i := Some v]> (cells a)) (named a).
Proof.
  intros Hi Hmax. unfold arr_set.
  assert (is_array_index i = true) as -> by (apply is_array_index_spec; lia).
  simpl. by assert ((Z.to_nat i <? length (cells a))%nat = true) as ->
    by (apply Nat.ltb_lt; lia).
Qed.

(** A write at an array index past the end makes the array end there. *)
Lemma arr_set_grows a i v :
  Z.of_nat (length (cells a)) ≤ i < 2 ^ 32 - 1 →
  Z.of_nat (length (cells (arr_set a i v))) = i + 1.
Proof.
  intros Hi. unfold arr_set.
  assert (is_array_index i = true) as -> by (apply is_array_index_spec; lia).
  simpl. assert ((Z.to_nat i <? length (cells a))%nat = false) as ->
    by (apply Nat.ltb_ge; lia).
  simpl. rewrite !length_app, length_replicate. simpl. lia.
Qed.

(** A write at a key that is not an array index leaves the cells. *)
Lemma arr_set_named a i v :
  is_array_index i = false →
  arr_set a i v = mkArray (cells a) (<[i := v]> (named a)).
Proof. intros Hi. unfold arr_set. by rewrite Hi. Qed.
End Arrays.

(** ** Effects and commits *)

(** Unfold the setters and reduce the record projections. *)
Ltac st_simpl :=
  unfold setScore, setTimeLeft, setIsActive, setHoleContents,
    setGameOverReason, setMoleTimeouts, setTimerId, setPopInterval,
    setTimeout, clearTimeout in *;
  simpl in *.

(** The same in the goal only, innermost first and reducing nothing
    but the setters and the projections. *)
Ltac st_proj :=
  cbv [setScore setTimeLeft setIsActive setHoleContents
       setGameOverReason setMoleTimeouts setTimerId setPopInterval
       setTimeout clearTimeout
       score timeLeft isActive holeContents gameOverReason moleTimeouts
       timerId popInterval timers nextTimer].

Section Effects.
Implicit Types (st : State) (id : nat).

(** Effects run only when a dependency changed. *)
Lemma commitEffects_same_deps (prev rendered : State) :
  timerDeps prev = timerDeps rendered → commitEffects prev rendered = rendered.
Proof.
  intros Hd. unfold commitEffects.
  rewrite (bool_decide_eq_true_2 _ Hd).
  assert (poppingDeps prev = poppingDeps rendered) as Hp
    by (unfold timerDeps in Hd; unfold poppingDeps; congruence).
  by rewrite (bool_decide_eq_true_2 _ Hp).
Qed.

Lemma settle_same_deps (prev next : State) :
  timerDeps prev = timerDeps next → settle prev next = next.
Proof.
  intros Hd. unfold settle.
  rewrite (commitEffects_same_deps _ _ Hd).
  by apply commitEffects_same_deps.
Qed.

(** The three shapes of a commit. *)
Lemma commitEffects_timer (prev rendered : State) :
  isActive prev = isActive rendered →
  timerDeps prev ≠ timerDeps rendered →
  commitEffects prev rendered = timerEffect rendered (timerCleanup rendered).
Proof.
  intros Ha Hd. unfold commitEffects.
  rewrite (bool_decide_eq_false_2 _ Hd).
  by rewrite (bool_decide_eq_true_2 (poppingDeps prev = poppingDeps rendered) Ha).
Qed.

Lemma commitEffects_both (prev rendered : State) :
  isActive prev ≠ isActive rendered →
  commitEffects prev rendered =
  poppingEffect rendered
    (timerEffect rendered (poppingCleanup (timerCleanup rendered))).
Proof.
  intros Ha. unfold commitEffects.
  rewrite (bool_decide_eq_false_2 (poppingDeps prev = poppingDeps rendered) Ha).
  rewrite bool_decide_eq_false_2; [done|].
  unfold timerDeps. congruence.
Qed.

Lemma foldl_clearTimeout st ids :
  foldl (λ s id, clearTimeout id s) st ids =
  mkState (score st) (timeLeft st) (isActive st) (holeContents st)
    (gameOverReason st) (moleTimeouts st) (timerId st) (popInterval st)
    (deleteAll ids (timers st)) (nextTimer st).
Proof.
  revert st. induction ids as [|id ids IH]; intros st; simpl.
  - by destruct st.
  - by rewrite IH.
Qed.

Lemma clearMoleTimeouts_eq st :
  clearMoleTimeouts st =
  mkState (score st) (timeLeft st) (isActive st) (holeContents st)
    (gameOverReason st) (moleTimeouts st) (timerId st) (popInterval st)
    (deleteAll (moleTimeouts st) (timers st)) (nextTimer st).
Proof. apply foldl_clearTimeout. Qed.

Lemma lookup_deleteAll ids (m : gmap nat Callback) id :
  deleteAll ids m !! id = if decide (id ∈ ids) then None else m !! id.
Proof.
  revert m. induction ids as [|k ids IH]; intros m.
  - destruct (decide (id ∈ [])) as [Hin|_]; [|done].
    by apply elem_of_nil in Hin.
  - change (deleteAll (k :: ids) m) with (deleteAll ids (delete k m)).
    rewrite IH.
    destruct (decide (id ∈ ids)) as [Hin|Hin],
             (decide (id ∈ k :: ids)) as [Hin'|Hin']; try done.
    + exfalso. apply Hin'. by right.
    + apply elem_of_cons in Hin' as [->|?]; [|done]. apply lookup_delete_eq.
    + apply lookup_delete_ne. intros ->. apply Hin'. by left.
Qed.

(** Unless the rendered game is active with no time left, a commit
    changes nothing a render shows: it only moves timers. *)
Lemma commitEffects_shown (prev r : State) :
  isActive r = false ∨ 0 < timeLeft r →
  shown (commitEffects prev r) = shown r.
Proof.
  intros Hr. unfold commitEffects, timerEffect, poppingEffect,
    timerCleanup, poppingCleanup.
  destruct r as [sc tl act grid reason mt tid pid tm nt]. simpl in *.
  destruct act; simpl.
  - assert ((tl <=? 0) = false) as -> by (destruct Hr; [done | lia]).
    repeat case_bool_decide; simpl; destruct tid, pid; simpl;
      rewrite ?clearMoleTimeouts_eq; reflexivity.
  - repeat case_bool_decide; simpl; destruct tid, pid; simpl;
      rewrite ?clearMoleTimeouts_eq; reflexivity.
Qed.

Lemma settle_shown (prev next : State) :
  isActive next = false ∨ 0 < timeLeft next →
  shown (settle prev next) = shown next.
Proof.
  intros Hn. unfold settle.
  pose proof (commitEffects_shown prev next Hn) as H1.
  rewrite commitEffects_shown; [done|].
  unfold shown in H1. injection H1 as _ -> -> _ _. done.
Qed.

(** A commit on an active render with no time left either finds its
    dependencies unchanged or stops the session. *)
Lemma commitEffects_expired (prev r : State) :
  isActive r = true → timeLeft r ≤ 0 →
  commitEffects prev r = r ∨ isActive (commitEffects prev r) = false.
Proof.
  intros Ha Ht.
  destruct (decide (timerDeps prev = timerDeps r)) as [Hd|Hd].
  { left. by apply commitEffects_same_deps. }
  right. unfold commitEffects. rewrite (bool_decide_eq_false_2 _ Hd).
  unfold timerEffect, poppingEffect. rewrite Ha. simpl.
  assert ((timeLeft r <=? 0) = true) as -> by lia.
  destruct (negb (bool_decide (poppingDeps prev = poppingDeps r)));
    case_bool_decide; st_proj; by rewrite clearMoleTimeouts_eq.
Qed.

(** X20: two commits are enough.  Whatever a handler did to the
    state, after the effects have been committed twice no effect has a
    changed dependency left: a third commit changes nothing, so the
    component cannot loop through renders. *)
Lemma settle_at_rest (prev next : State) :
  commitEffects (commitEffects prev next) (settle prev next) = settle prev next.
Proof.
  assert (∀ a b, timerDeps a = timerDeps b →
            commitEffects (commitEffects a b) (commitEffects b (commitEffects a b))
            = commitEffects b (commitEffects a b)) as Hsame.
  { intros a b Hd. rewrite (commitEffects_same_deps a b Hd).
    rewrite (commitEffects_same_deps b b eq_refl).
    by apply commitEffects_same_deps. }
  assert (∀ a b : State, shown a = shown b → timerDeps a = timerDeps b) as Hshown.
  { intros a b [= _ Ht Ha _ Hr]. unfold timerDeps. congruence. }
  unfold settle. apply commitEffects_same_deps.
  destruct (isActive next) eqn:Ha; [destruct (decide (0 < timeLeft next))|].
  - symmetry. rewrite (commitEffects_same_deps next); [done|]. symmetry.
    apply Hshown, commitEffects_shown. by right.
  - destruct (commitEffects_expired prev next Ha) as [Heq|Hstop]; [lia| |].
    + rewrite Heq. by rewrite (commitEffects_same_deps next next eq_refl).
    + symmetry. apply Hshown, commitEffects_shown. by left.
  - symmetry. rewrite (commitEffects_same_deps next); [done|]. symmetry.
    apply Hshown, commitEffects_shown. by left.
Qed.
End Effects.

(** ** Whacking *)

Section Whack.
Implicit Types (st : State) (i j index : Z).

(** The two ways out of [whackItem] at its first line. *)
Lemma whackItem_guard st index :
  arr_get (holeContents st) index = Some empty ∨ isActive st = false →
  whackItem index st = st.
Proof.
  intros H. unfold whackItem, whackItem_of.
  destruct H as [-> | ->]; [done|].
  by rewrite orb_true_r.
Qed.

(** Past the guard: the score moves by the content, the cell is written. *)
Lemma whackItem_hit st index :
  isActive st = true → arr_get (holeContents st) index ≠ Some empty →
  whackItem index st =
    setHoleContents (λ prev, arr_set (spread prev) index empty)
      (match arr_get (holeContents st) index with
       | Some mole => setScore (λ prevScore, prevScore + 10) st
       | Some bomb => setScore (λ prevScore, prevScore - 10) st
       | _ => st
       end).
Proof.
  intros Hact Hne. unfold whackItem, whackItem_of. rewrite Hact.
  rewrite bool_decide_eq_false_2 by done. simpl.
  by destruct (arr_get (holeContents st) index) as [[]|].
Qed.

Lemma whackItem_cell st index :
  isActive st = true → arr_get (holeContents st) index ≠ Some empty →
  arr_get (holeContents (whackItem index st)) index = Some empty.
Proof.
  intros Hact Hne. rewrite whackItem_hit by done.
  simpl. by destruct (arr_get (holeContents st) index) as [[]|];
    simpl; rewrite arr_get_set_eq.
Qed.

Lemma whackItem_timerDeps st i : timerDeps (whackItem i st) = timerDeps st.
Proof.
  unfold whackItem, whackItem_of.
  destruct (bool_decide _ || _); [done|].
  by repeat case_bool_decide.
Qed.

End Whack.

Section WhackProperties.
Implicit Types (st : State) (i j : Z).





(** C10: for a valid cell index [i] and any state, a whack leaves the
    time left, the running flag, the end cause and every cell other
    than [i] as they were; the grid keeps its length. *)
Theorem whackItem_frame st i :
  0 ≤ i < Z.of_nat GRID_SIZE →
  timeLeft (whackItem i st) = timeLeft st ∧
  isActive (whackItem i st) = isActive st ∧
  gameOverReason (whackItem i st) = gameOverReason st ∧
  (length (cells (holeContents st)) = GRID_SIZE →
   length (cells (holeContents (whackItem i st))) = GRID_SIZE) ∧
  ∀ j, j ≠ i → is_array_index j = true →
       arr_get (holeContents (whackItem i st)) j = arr_get (holeContents st) j.
Proof.
  intros Hi.
  pose proof (whackItem_timerDeps st i) as Hd. unfold timerDeps in Hd.
  injection Hd as Ha Ht Hr. repeat split; try done.
  - intros Hlen. unfold whackItem, whackItem_of.
    destruct (bool_decide _ || _); [done|].
    assert (length (cells (arr_set (spread (holeContents st)) i empty)) = GRID_SIZE)
      as Hl.
    { rewrite arr_set_in_range; simpl; rewrite ?Hlen; unfold GRID_SIZE in *;
        try lia. by rewrite length_insert. }
    by repeat case_bool_decide.
  - intros j Hne Hj. unfold whackItem, whackItem_of.
    destruct (bool_decide _ || _); [done|].
    assert (arr_get (arr_set (spread (holeContents st)) i empty) j
            = arr_get (holeContents st) j) as Hg
      by (rewrite arr_get_set_ne by done; by apply arr_get_spread).
    by repeat case_bool_decide.
Qed.

(** C10 on a running game with a mole in hole 0. *)
Lemma whackItem_frame_witness :
  timeLeft (whackItem 0 moleUp) = timeLeft moleUp ∧
  isActive (whackItem 0 moleUp) = isActive moleUp ∧
  gameOverReason (whackItem 0 moleUp) = gameOverReason moleUp ∧
  (length (cells (holeContents moleUp)) = GRID_SIZE →
   length (cells (holeContents (whackItem 0 moleUp))) = GRID_SIZE) ∧
  ∀ j, j ≠ 0 → is_array_index j = true →
       arr_get (holeContents (whackItem 0 moleUp)) j
       = arr_get (holeContents moleUp) j.
Proof.
  apply (whackItem_frame moleUp 0). by vm_compute.
Defined.

(** C9: on the 9-cell grid of a running session, a whack at an index
    below 0 or from 9 on reads [undefined], so it passes the empty-cell
    guard: the score stays, but ['empty'] is stored under that index and
    the state is no longer the same.  For an array index (up to
    2^32 - 2) the array now ends at that index, so it has grown beyond
    9 cells; for the other keys the value is a named property and the
    cells are untouched. *)
Theorem whackItem_out_of_range st index :
  isActive st = true →
  length (cells (holeContents st)) = GRID_SIZE →
  named (holeContents st) = ∅ →
  index < 0 ∨ Z.of_nat GRID_SIZE ≤ index →
  score (whackItem index st) = score st ∧
  arr_get (holeContents st) index = None ∧
  arr_get (holeContents (whackItem index st)) index = Some empty ∧
  whackItem index st ≠ st ∧
  (Z.of_nat GRID_SIZE ≤ index < 2 ^ 32 - 1 →
     Z.of_nat (length (cells (holeContents (whackItem index st)))) = index + 1) ∧
  (index < 0 ∨ 2 ^ 32 - 1 ≤ index →
     cells (holeContents (whackItem index st)) = cells (holeContents st)).
Proof.
  intros Hact Hlen Hnamed Hout.
  assert (arr_get (holeContents st) index = None) as Hundef.
  { destruct (arr_get (holeContents st) index) eqn:Hg; [|done].
    apply arr_get_Some_lt in Hg; [|done]. rewrite Hlen in Hg. lia. }
  assert (whackItem index st
          = setHoleContents (λ prev, arr_set (spread prev) index empty) st) as Hw.
  { rewrite whackItem_hit by (rewrite ?Hundef; done). by rewrite Hundef. }
  assert (arr_get (holeContents (whackItem index st)) index = Some empty) as Hnew
    by (rewrite Hw; simpl; apply arr_get_set_eq).
  repeat split; try done.
  - by rewrite Hw.
  - intros Heq. rewrite Heq in Hnew. congruence.
  - intros Hi. rewrite Hw. simpl. apply arr_set_grows. simpl. rewrite Hlen. lia.
  - intros Hi. rewrite Hw. simpl. rewrite arr_set_named; [done|].
    apply not_true_iff_false. rewrite is_array_index_spec. lia.
Qed.

(** C9 at index 12 (the array grows to 13 cells) and at index -1 (a
    named property, 9 cells as before) of a freshly started game. *)
Lemma whackItem_out_of_range_witness :
  (score (whackItem 12 started) = 0 ∧
   length (cells (holeContents (whackItem 12 started))) = 13%nat ∧
   arr_get (holeContents (whackItem 12 started)) 12 = Some empty) ∧
  (score (whackItem (-1) started) = 0 ∧
   length (cells (holeContents (whackItem (-1) started))) = 9%nat ∧
   arr_get (holeContents (whackItem (-1) started)) (-1) = Some empty).
Proof.
  split.
  - destruct (whackItem_out_of_range started 12) as (H1 & _ & H3 & _ & H5 & _);
      [reflexivity | reflexivity | reflexivity | right; by vm_compute | ].
    split; [exact H1 | split; [ | exact H3]].
    apply Nat2Z.inj. rewrite H5; [reflexivity | by vm_compute].
  - destruct (whackItem_out_of_range started (-1)) as (H1 & _ & H3 & _ & _ & H6);
      [reflexivity | reflexivity | reflexivity | left; by vm_compute | ].
    split; [exact H1 | split; [ | exact H3]].
    rewrite H6; [reflexivity | left; by vm_compute].
Defined.
End WhackProperties.

(** ** The event loop *)

Section Loop.
Implicit Types (st : State) (i j : Z) (id : nat).

(** Starting from rest: the clock and the spawn interval are set,
    with the next two handles. *)
Lemma step_Start st :
  wf st → isActive st = false →
  step st Start =
    Some (mkState 0 GAME_DURATION true emptyGrid None [] (Some (nextTimer st))
            (Some (S (nextTimer st)))
            (<[S (nextTimer st) := PopTick]> (<[nextTimer st := ClockTick]> ∅))
            (S (S (nextTimer st)))).
Proof.
  intros Hwf Hidle.
  destruct (wf_idle st Hwf Hidle) as (Ht & Hc & Hp & Hm & Hg).
  destruct st as [sc tl act grid reason mt tid pid tm nt]; simpl in *; subst.
  reflexivity.
Qed.

(** The clock fires with more than a second left: one second less, and
    the effect schedules the next timeout. *)
Lemma step_clock_next st id r1 r2 :
  wf st → isActive st = true → timers st !! id = Some ClockTick →
  1 < timeLeft st →
  step st (Fire id r1 r2) =
    Some (mkState (score st) (timeLeft st - 1) true (holeContents st)
            (gameOverReason st) (moleTimeouts st) (Some (nextTimer st))
            (popInterval st)
            (<[nextTimer st := ClockTick]> (delete id (delete id (timers st))))
            (S (nextTimer st))).
Proof.
  intros Hwf Hact Hid Hlt.
  destruct (wf_running st Hwf Hact) as (Hr & Hpos & c & p & Hc & Hp & Htc & Htp & Huc & Hup).
  assert (id = c) as -> by auto.
  unfold step, handle. rewrite Hid. f_equal. unfold settle.
  rewrite (commitEffects_timer st).
  - destruct st as [sc tl act grid reason mt tid pid tm nt]; simpl in *; subst.
    unfold timerEffect, timerCleanup, clockTick. simpl.
    assert ((tl - 1 <=? 0) = false) as -> by lia. simpl.
    by apply commitEffects_same_deps.
  - by destruct st.
  - destruct st; unfold timerDeps; simpl. intros [=]. lia.
Qed.

(** The clock fires with one second left: the session ends, every
    timer is cancelled and the grid is reset. *)
Lemma step_clock_expiry st id r1 r2 :
  wf st → isActive st = true → timers st !! id = Some ClockTick →
  timeLeft st ≤ 1 →
  step st (Fire id r1 r2) =
    Some (mkState (score st) (timeLeft st - 1) false emptyGrid
            (Some reason_time) [] None None ∅ (nextTimer st)).
Proof.
  intros Hwf Hact Hid Hle.
  destruct (wf_running st Hwf Hact) as (Hr & Hpos & c & p & Hc & Hp & Htc & Htp & Huc & Hup).
  assert (id = c) as -> by auto.
  unfold step, handle. rewrite Hid. f_equal. unfold settle.
  rewrite (commitEffects_timer st).
  - pose proof (wf_hides st Hwf) as Hh.
    destruct st as [sc tl act grid reason mt tid pid tm nt]; simpl in *; subst.
    unfold timerEffect, timerCleanup, clockTick. simpl.
    assert ((tl - 1 <=? 0) = true) as -> by lia. simpl.
    rewrite clearMoleTimeouts_eq. simpl.
    rewrite commitEffects_both by (simpl; done).
    unfold timerEffect, timerCleanup, poppingEffect, poppingCleanup. simpl.
    st_proj. rewrite clearMoleTimeouts_eq. st_proj. f_equal.
    apply map_eq. intros k. rewrite lookup_empty.
    rewrite lookup_deleteAll. case_decide; [done|].
    destruct (decide (k = p)) as [->|Hkp]; [apply lookup_delete_eq|].
    rewrite lookup_delete_ne by done.
    rewrite lookup_deleteAll. case_decide; [done|].
    destruct (decide (k = c)) as [->|Hkc]; [apply lookup_delete_eq|].
    rewrite !lookup_delete_ne by done.
    destruct (tm !! k) as [[| |i content]|] eqn:Hk; [| | |done].
    + by apply Huc in Hk.
    + by apply Hup in Hk.
    + by apply Hh in Hk.
  - by destruct st.
  - destruct st; unfold timerDeps; simpl. intros [=]. lia.
Qed.

(** *** Spawning *)

Lemma elem_of_emptyHolesIndexes (a : HoleArray) (k : Z) :
  k ∈ emptyHolesIndexes a ↔
  0 ≤ k ∧ cells a !! Z.to_nat k = Some (Some empty).
Proof.
  unfold emptyHolesIndexes. rewrite list_elem_of_filter, elem_of_lookup_imap.
  split.
  - intros (Hk & n & c & Heq & Hn). case_bool_decide; [|done]. subst.
    split; [lia|]. by rewrite Nat2Z.id.
  - intros (Hk & Hn). split; [lia|].
    exists (Z.to_nat k), (Some empty). split; [|done].
    rewrite bool_decide_eq_true_2 by done. lia.
Qed.

Lemma Qlt_bool_iff (x y : Q) : Qlt_bool x y = true ↔ (x < y)%Q.
Proof.
  unfold Qlt_bool. rewrite negb_true_iff. split.
  - intros Hb. apply Qnot_le_lt. intros Hle.
    apply Qle_bool_iff in Hle. congruence.
  - intros Hlt. apply not_true_iff_false. intros Hle.
    apply Qle_bool_iff in Hle. by apply Qlt_not_le in Hlt.
Qed.

Lemma is_draw_spec (r : Q) : is_draw r = true ↔ (0 <= r)%Q ∧ (r < 1)%Q.
Proof.
  unfold is_draw. by rewrite andb_true_iff, Qle_bool_iff, Qlt_bool_iff.
Qed.

(** [Math.floor(r * n)] is a position of a list of [n > 0] elements. *)
Lemma randomPosition_range (r : Q) (n : nat) :
  is_draw r = true → (0 < n)%nat →
  0 ≤ randomPosition r n < Z.of_nat n.
Proof.
  intros [H0 H1]%is_draw_spec Hn. unfold randomPosition.
  assert (0 < inject_Z (Z.of_nat n))%Q as HnQ
    by (rewrite <- (Zlt_Qlt 0); lia).
  split.
  - change 0 with (Qfloor 0). apply Qfloor_resp_le.
    apply Qmult_le_0_compat; [done | by apply Qlt_le_weak].
  - rewrite Zlt_Qlt.
    eapply Qle_lt_trans; [apply Qfloor_le|].
    rewrite <- (Qmult_1_l (inject_Z (Z.of_nat n))) at 2.
    by apply Qmult_lt_compat_r.
Qed.

Lemma randomContent_spec (r : Q) :
  ((r < BOMB_CHANCE)%Q ∧ randomContent r = bomb) ∨
  ((BOMB_CHANCE <= r)%Q ∧ randomContent r = mole).
Proof.
  unfold randomContent. destruct (Qlt_bool r BOMB_CHANCE) eqn:Hb.
  - left. by apply Qlt_bool_iff in Hb.
  - right. split; [|done]. apply Qnot_lt_le. intros Hlt.
    apply Qlt_bool_iff in Hlt. congruence.
Qed.

Lemma randomContent_not_empty (r : Q) : randomContent r ≠ empty.
Proof. unfold randomContent. by destruct (Qlt_bool r BOMB_CHANCE). Qed.

(** A full grid: the tick returns [currentHoles] itself. *)
Lemma popTick_full st r1 r2 :
  emptyHolesIndexes (holeContents st) = [] → popTick r1 r2 st = Some st.
Proof. intros He. unfold popTick. by rewrite He. Qed.

(** Otherwise one empty hole is picked and written, and its hide
    timeout is scheduled and recorded. *)
Lemma popTick_spawn st r1 r2 :
  is_draw r1 = true → emptyHolesIndexes (holeContents st) ≠ [] →
  ∃ k,
    js_nth (emptyHolesIndexes (holeContents st))
      (randomPosition r1 (length (emptyHolesIndexes (holeContents st)))) = Some k ∧
    k ∈ emptyHolesIndexes (holeContents st) ∧
    popTick r1 r2 st =
      Some (mkState (score st) (timeLeft st) (isActive st)
              (arr_set (spread (holeContents st)) k (randomContent r2))
              (gameOverReason st) (moleTimeouts st ++ [nextTimer st])
              (timerId st) (popInterval st)
              (<[nextTimer st := HideHole k (randomContent r2)]> (timers st))
              (S (nextTimer st))).
Proof.
  intros Hr He. unfold popTick.
  set (es := emptyHolesIndexes (holeContents st)) in *.
  assert (0 < length es)%nat as Hlen by (destruct es; [done | simpl; lia]).
  rewrite bool_decide_eq_false_2 by lia.
  pose proof (randomPosition_range r1 (length es) Hr Hlen) as Hpos.
  unfold js_nth. assert ((0 <=? randomPosition r1 (length es)) = true) as ->
    by lia.
  destruct (lookup_lt_is_Some_2 es (Z.to_nat (randomPosition r1 (length es))))
    as [k Hk]; [lia|].
  exists k. rewrite Hk. split; [done|]. split; [|done].
  by eapply list_elem_of_lookup_2.
Qed.

(** Every spawn tick with draws from [0,1) returns. *)
Lemma popTick_total st r1 r2 :
  is_draw r1 = true → is_Some (popTick r1 r2 st).
Proof.
  intros Hr. destruct (emptyHolesIndexes (holeContents st)) eqn:He.
  - rewrite popTick_full by done. by eexists.
  - destruct (popTick_spawn st r1 r2 Hr) as (k & _ & _ & ->); [by rewrite He|].
    by eexists.
Qed.

Lemma popTick_timerDeps st r1 r2 st' :
  popTick r1 r2 st = Some st' → timerDeps st' = timerDeps st.
Proof.
  unfold popTick. case_bool_decide; [by intros [= <-]|].
  destruct (js_nth _ _); [|done]. by intros [= <-].
Qed.

Lemma step_pop st id r1 r2 :
  timers st !! id = Some PopTick → is_draw r1 = true → is_draw r2 = true →
  step st (Fire id r1 r2) = popTick r1 r2 st.
Proof.
  intros Hid Hr1 Hr2. unfold step, handle. rewrite Hid, Hr1, Hr2. simpl.
  destruct (popTick r1 r2 st) as [st'|] eqn:Hp; [|done].
  by rewrite settle_same_deps by (by rewrite (popTick_timerDeps _ _ _ _ Hp)).
Qed.

(** *** Hiding *)

Lemma step_hide st id r1 r2 i c :
  timers st !! id = Some (HideHole i c) →
  step st (Fire id r1 r2) = Some (hideHole i c (clearTimeout id st)).
Proof.
  intros Hid. unfold step, handle. rewrite Hid.
  by rewrite settle_same_deps.
Qed.


Lemma hideHole_stale st i c :
  arr_get (spread (holeContents st)) i ≠ Some c →
  holeContents (hideHole i c st) = spread (holeContents st).
Proof. intros Hg. unfold hideHole. simpl. by rewrite bool_decide_eq_false_2. Qed.

(** *** The invariant *)

Lemma grid_ok_emptyGrid : grid_ok emptyGrid.
Proof.
  split; [done|]. split; [|done].
  intros n Hn. exists empty. unfold emptyGrid, cells. by apply lookup_replicate_2.
Qed.

Lemma grid_ok_spread (a : HoleArray) : grid_ok a → grid_ok (spread a).
Proof. intros (Hl & Hd & _). by repeat split. Qed.

Lemma grid_ok_arr_set (a : HoleArray) i (v : HoleContent) :
  grid_ok a → 0 ≤ i < Z.of_nat GRID_SIZE →
  grid_ok (arr_set (spread a) i v).
Proof.
  intros (Hl & Hd & _) Hi.
  rewrite arr_set_in_range by (simpl; rewrite ?Hl; unfold GRID_SIZE in *; lia).
  unfold grid_ok, spread. cbn [cells named].
  split; [by rewrite length_insert|]. split; [|done].
  intros n Hn. destruct (decide (n = Z.to_nat i)) as [->|Hne].
  - exists v. apply list_lookup_insert_eq. lia.
  - rewrite list_lookup_insert_ne by done. by apply Hd.
Qed.

Lemma grid_ok_get (a : HoleArray) i :
  grid_ok a → 0 ≤ i < Z.of_nat GRID_SIZE → ∃ c, arr_get a i = Some c.
Proof.
  intros (Hl & Hd & _) Hi. unfold arr_get.
  assert (is_array_index i = true) as ->
    by (apply is_array_index_spec; unfold GRID_SIZE in *; lia).
  destruct (Hd (Z.to_nat i)) as [c Hc]; [lia|].
  exists c. by rewrite Hc.
Qed.

Lemma grid_ok_get_range (a : HoleArray) i c :
  grid_ok a → arr_get a i = Some c → 0 ≤ i < Z.of_nat GRID_SIZE.
Proof.
  intros (Hl & _ & Hn) Hg. apply arr_get_Some_lt in Hg; [|done].
  by rewrite Hl in Hg.
Qed.

Lemma wf_initial : wf initial.
Proof.
  split; simpl; try done.
  - apply grid_ok_emptyGrid.
  - by left.
  - intros id [cb Hcb]. by rewrite lookup_empty in Hcb.
Qed.

Lemma wf_active_of_timer st id cb :
  wf st → timers st !! id = Some cb → isActive st = true.
Proof.
  intros Hwf Hid. destruct (isActive st) eqn:Hact; [done|].
  destruct (wf_idle st Hwf Hact) as (Ht & _).
  by rewrite Ht, lookup_empty in Hid.
Qed.

Lemma wf_whackItem st i :
  wf st → 0 ≤ i < Z.of_nat GRID_SIZE → wf (whackItem i st).
Proof.
  intros Hwf Hi.
  destruct (decide (arr_get (holeContents st) i = Some empty ∨ isActive st = false))
    as [Hg|Hg].
  { by rewrite whackItem_guard. }
  assert (isActive st = true) as Hact by (destruct (isActive st); tauto).
  rewrite whackItem_hit by tauto.
  destruct Hwf as [Hgrid Hreason Hhides Hfresh Hrun Hidle].
  split; destruct (arr_get (holeContents st) i) as [[]|]; st_simpl; try done;
    try (by apply grid_ok_arr_set); congruence.
Qed.

Lemma wf_popTick st r1 r2 st' :
  wf st → isActive st = true → is_draw r1 = true →
  popTick r1 r2 st = Some st' → wf st'.
Proof.
  intros Hwf Hact Hr Hpop.
  destruct (emptyHolesIndexes (holeContents st)) eqn:He.
  { rewrite popTick_full in Hpop by done. by injection Hpop as <-. }
  destruct (popTick_spawn st r1 r2 Hr) as (k & _ & Hk & Heq); [by rewrite He|].
  rewrite Heq in Hpop. injection Hpop as <-.
  destruct Hwf as [Hgrid Hreason Hhides Hfresh Hrun Hidle].
  destruct (Hrun Hact) as (Hr0 & Hpos & c & p & Hc & Hp & Htc & Htp & Huc & Hup).
  assert (c < nextTimer st)%nat as Hcn by (apply Hfresh; by eexists).
  assert (p < nextTimer st)%nat as Hpn by (apply Hfresh; by eexists).
  split; simpl; try done.
  - apply grid_ok_arr_set; [done|].
    apply elem_of_emptyHolesIndexes in Hk as [Hk0 Hkl].
    apply lookup_lt_Some in Hkl. destruct Hgrid as (Hl & _). lia.
  - intros id i c' Hid. apply elem_of_app.
    destruct (decide (id = nextTimer st)) as [->|Hne]; [right; by left|].
    rewrite lookup_insert_ne in Hid by done. left. by eapply Hhides.
  - intros id [cb Hid].
    destruct (decide (id = nextTimer st)) as [->|Hne]; [lia|].
    rewrite lookup_insert_ne in Hid by done.
    assert (id < nextTimer st)%nat by (apply Hfresh; by eexists). lia.
  - intros _. split; [done|]. split; [done|]. exists c, p.
    rewrite !lookup_insert_ne by lia. repeat split; try done.
    + intros id Hid. destruct (decide (id = nextTimer st)) as [->|Hne];
        [by rewrite lookup_insert_eq in Hid|].
      rewrite lookup_insert_ne in Hid by done. by apply Huc.
    + intros id Hid. destruct (decide (id = nextTimer st)) as [->|Hne];
        [by rewrite lookup_insert_eq in Hid|].
      rewrite lookup_insert_ne in Hid by done. by apply Hup.
  - congruence.
Qed.

Lemma wf_hideHole st id i c :
  wf st → timers st !! id = Some (HideHole i c) →
  wf (hideHole i c (clearTimeout id st)).
Proof.
  intros Hwf Hid.
  pose proof (wf_active_of_timer st id _ Hwf Hid) as Hact.
  destruct Hwf as [Hgrid Hreason Hhides Hfresh Hrun Hidle].
  destruct (Hrun Hact) as (Hr0 & Hpos & c0 & p & Hc & Hp & Htc & Htp & Huc & Hup).
  split; simpl; try done.
  - case_bool_decide as Hg.
    + apply grid_ok_arr_set; [done|].
      eapply grid_ok_get_range; [by apply grid_ok_spread|done].
    + by apply grid_ok_spread.
  - intros id' i' c' Hid'. apply lookup_delete_Some in Hid' as [_ Hid'].
    by eapply Hhides.
  - intros id' [cb Hid']. apply lookup_delete_Some in Hid' as [_ Hid'].
    apply Hfresh. by eexists.
  - intros _. split; [done|]. split; [done|]. exists c0, p.
    rewrite !lookup_delete_ne by congruence. repeat split; try done.
    + intros id' Hid'. apply lookup_delete_Some in Hid' as [_ Hid']. by apply Huc.
    + intros id' Hid'. apply lookup_delete_Some in Hid' as [_ Hid']. by apply Hup.
  - congruence.
Qed.

Lemma wf_clock st id r1 r2 st' :
  wf st → timers st !! id = Some ClockTick →
  step st (Fire id r1 r2) = Some st' → wf st'.
Proof.
  intros Hwf Hid Hstep.
  pose proof (wf_active_of_timer st id _ Hwf Hid) as Hact.
  destruct (decide (1 < timeLeft st)) as [Hlt|Hle].
  - rewrite step_clock_next in Hstep by done. injection Hstep as <-.
    destruct Hwf as [Hgrid Hreason Hhides Hfresh Hrun Hidle].
    destruct (Hrun Hact) as (Hr0 & Hpos & c & p & Hc & Hp & Htc & Htp & Huc & Hup).
    assert (id = c) as -> by auto.
    assert (c ≠ p) as Hcp by congruence.
    assert (p < nextTimer st)%nat as Hpn by (apply Hfresh; by eexists).
    split; simpl; try done.
    + intros id i c' Hid'.
      destruct (decide (id = nextTimer st)) as [->|Hne];
        [by rewrite lookup_insert_eq in Hid'|].
      rewrite lookup_insert_ne in Hid' by done.
      apply lookup_delete_Some in Hid' as [_ Hid'].
      apply lookup_delete_Some in Hid' as [_ Hid']. by eapply Hhides.
    + intros id [cb Hid'].
      destruct (decide (id = nextTimer st)) as [->|Hne]; [lia|].
      rewrite lookup_insert_ne in Hid' by done.
      apply lookup_delete_Some in Hid' as [_ Hid'].
      apply lookup_delete_Some in Hid' as [_ Hid'].
      assert (id < nextTimer st)%nat by (apply Hfresh; by eexists). lia.
    + intros _. split; [done|]. split; [lia|].
      exists (nextTimer st), p. rewrite lookup_insert_eq.
      rewrite lookup_insert_ne by lia. rewrite !lookup_delete_ne by done.
      repeat split; try done.
      * intros id Hid'.
        destruct (decide (id = nextTimer st)) as [->|Hne]; [done|].
        rewrite lookup_insert_ne in Hid' by done.
        apply lookup_delete_Some in Hid' as [Hne' Hid'].
        apply lookup_delete_Some in Hid' as [_ Hid'].
        apply Huc in Hid'. congruence.
      * intros id Hid'.
        destruct (decide (id = nextTimer st)) as [->|Hne];
          [by rewrite lookup_insert_eq in Hid'|].
        rewrite lookup_insert_ne in Hid' by done.
        apply lookup_delete_Some in Hid' as [_ Hid'].
        apply lookup_delete_Some in Hid' as [_ Hid']. by apply Hup.
  - rewrite step_clock_expiry in Hstep by (done || lia). injection Hstep as <-.
    pose proof (wf_fresh st Hwf) as Hfresh.
    split; simpl; try done.
    + apply grid_ok_emptyGrid.
    + by right.
    + intros id' [cb Hcb]. by rewrite lookup_empty in Hcb.
Qed.

Lemma wf_step st ev st' : wf st → step st ev = Some st' → wf st'.
Proof.
  intros Hwf Hstep. destruct ev as [|index|id r1 r2].
  - (* Start *)
    destruct (isActive st) eqn:Hact.
    { unfold step, handle in Hstep. by rewrite Hact in Hstep. }
    rewrite step_Start in Hstep by done. injection Hstep as <-.
    pose proof (wf_fresh st Hwf) as Hfresh.
    split; simpl; try done.
    + apply grid_ok_emptyGrid.
    + by left.
    + intros id i c Hid. exfalso.
      destruct (decide (id = S (nextTimer st))) as [->|?];
        [by rewrite lookup_insert_eq in Hid|].
      rewrite lookup_insert_ne in Hid by done.
      destruct (decide (id = nextTimer st)) as [->|?];
        [by rewrite lookup_insert_eq in Hid|].
      by rewrite lookup_insert_ne, lookup_empty in Hid.
    + intros id [cb Hid].
      destruct (decide (id = S (nextTimer st))) as [->|?]; [lia|].
      rewrite lookup_insert_ne in Hid by done.
      destruct (decide (id = nextTimer st)) as [->|?]; [lia|].
      by rewrite lookup_insert_ne, lookup_empty in Hid.
    + intros _. split; [done|]. split; [done|].
      exists (nextTimer st), (S (nextTimer st)).
      repeat split.
      * rewrite lookup_insert_ne by lia. apply lookup_insert_eq.
      * apply lookup_insert_eq.
      * intros id Hid.
        destruct (decide (id = S (nextTimer st))) as [->|?];
          [by rewrite lookup_insert_eq in Hid|].
        rewrite lookup_insert_ne in Hid by done.
        destruct (decide (id = nextTimer st)) as [->|?]; [done|].
        by rewrite lookup_insert_ne, lookup_empty in Hid.
      * intros id Hid.
        destruct (decide (id = S (nextTimer st))) as [->|?]; [done|].
        rewrite lookup_insert_ne in Hid by done.
        destruct (decide (id = nextTimer st)) as [->|?];
          [by rewrite lookup_insert_eq in Hid|].
        by rewrite lookup_insert_ne, lookup_empty in Hid.
  - (* Whack *)
    unfold step, handle in Hstep.
    destruct ((0 <=? index) && _) eqn:Hi; [|done].
    apply andb_true_iff in Hi as [H0 H1].
    rewrite settle_same_deps in Hstep by (by rewrite whackItem_timerDeps).
    injection Hstep as <-. apply wf_whackItem; [done|].
    destruct (wf_grid st Hwf) as (Hl & _). rewrite Hl in H1. lia.
  - (* Fire *)
    destruct (timers st !! id) as [[| |i c]|] eqn:Hid.
    + by eapply wf_clock.
    + pose proof (wf_active_of_timer st id _ Hwf Hid) as Hact.
      unfold step, handle in Hstep. rewrite Hid in Hstep.
      destruct (is_draw r1) eqn:Hr1; [|done].
      destruct (is_draw r2) eqn:Hr2; [|done]. simpl in Hstep.
      destruct (popTick r1 r2 st) as [st1|] eqn:Hpop; [|done].
      rewrite settle_same_deps in Hstep
        by (by rewrite (popTick_timerDeps _ _ _ _ Hpop)).
      injection Hstep as <-. by apply (wf_popTick st r1 r2).
    + rewrite (step_hide _ _ _ _ _ _ Hid) in Hstep. injection Hstep as <-.
      by apply wf_hideHole.
    + unfold step, handle in Hstep. by rewrite Hid in Hstep.
Qed.

Lemma wf_run st evs st' : wf st → run st evs = Some st' → wf st'.
Proof.
  revert st. induction evs as [|ev evs IH]; intros st Hwf Hrun; simpl in Hrun.
  - by injection Hrun as <-.
  - destruct (step st ev) as [st1|] eqn:Hstep; [|done].
    eapply IH; [|done]. by eapply wf_step.
Qed.

Lemma reachable_wf st : reachable st → wf st.
Proof. intros [evs Hrun]. eapply wf_run; [apply wf_initial|done]. Qed.
End Loop.

(** ** Starting *)

Section StartProperties.
Implicit Types (st : State).

(** C4: from any state whatever (score, time left, grid, end cause),
    [startGame] gives score 0, 60 seconds, a running session, no end
    cause and nine empty cells; the effects that follow (clock and spawn
    interval) leave these values as they are. *)
Theorem startGame_resets st :
  shown (startGame st) = (0, 60, true, emptyGrid, None) ∧
  shown (settle st (startGame st)) = (0, 60, true, emptyGrid, None) ∧
  length (cells emptyGrid) = 9%nat ∧
  (∀ i, 0 ≤ i < 9 → arr_get emptyGrid i = Some empty).
Proof.
  split; [done|]. split; [|split; [done|]].
  - rewrite settle_shown; [done|]. right. simpl. unfold GAME_DURATION. lia.
  - intros i Hi. unfold arr_get.
    assert (is_array_index i = true) as -> by (apply is_array_index_spec; lia).
    unfold emptyGrid, cells. rewrite lookup_replicate_2; [done|].
    unfold GRID_SIZE. lia.
Qed.
End StartProperties.

(** ** The hide timeout and a later spawn *)

Section HideProperties.
Implicit Types (st : State).

(** C1, as stated, fails when both spawns are moles: the first spawn
    puts a mole in hole 0 and schedules hide timeout 3, the player
    whacks it, the second spawn puts a mole in hole 0 again, and when
    timeout 3 then fires it finds a mole, as it expects, and empties
    the hole. *)
Lemma stale_hide_clears_same_kind :
  ∃ s1 s2 s3 s4,
    step started popMole = Some s1 ∧
    arr_get (holeContents s1) 0 = Some mole ∧
    timers s1 !! 3%nat = Some (HideHole 0 mole) ∧
    step s1 (Whack 0) = Some s2 ∧
    arr_get (holeContents s2) 0 = Some empty ∧
    step s2 popMole = Some s3 ∧
    arr_get (holeContents s3) 0 = Some mole ∧
    timers s3 !! 3%nat = Some (HideHole 0 mole) ∧
    step s3 (Fire 3 0 0) = Some s4 ∧
    arr_get (holeContents s4) 0 ≠ Some mole.
Proof.
  do 4 eexists.
  split; [by vm_compute|]. split; [by vm_compute|]. split; [by vm_compute|].
  split; [by vm_compute|]. split; [by vm_compute|]. split; [by vm_compute|].
  split; [by vm_compute|]. split; [by vm_compute|]. split; [by vm_compute|].
  by vm_compute.
Qed.

(** C1, amended: when a pending hide timeout that was scheduled for
    content [A] in cell [c] fires while the cell holds a content [B] of
    the other kind, it does not clear the cell: the cell still holds
    [B], and no other cell changes either. *)
Theorem stale_hide_keeps_other_kind st h c A B r1 r2 :
  timers st !! h = Some (HideHole c A) →
  arr_get (holeContents st) c = Some B →
  is_array_index c = true →
  A ≠ B →
  ∃ st', step st (Fire h r1 r2) = Some st' ∧
         arr_get (holeContents st') c = Some B ∧
         cells (holeContents st') = cells (holeContents st).
Proof.
  intros Hh Hc Hidx Hne. eexists. split; [by apply step_hide|].
  rewrite hideHole_stale.
  - split; [|done]. simpl. by rewrite arr_get_spread.
  - simpl. rewrite arr_get_spread by done. rewrite Hc. congruence.
Qed.


(** The amended C1 on the race itself: mole, whack, bomb, and then the
    mole's hide timeout (handle 3) fires; hole 0 still shows the bomb. *)
Lemma stale_hide_keeps_other_kind_witness :
  ∃ st', step (respawned popMole popBomb) (Fire 3 0 0) = Some st' ∧
         arr_get (holeContents st') 0 = Some bomb ∧
         cells (holeContents st') = cells (holeContents (respawned popMole popBomb)).
Proof.
  apply (stale_hide_keeps_other_kind (respawned popMole popBomb) 3 0 mole bomb 0 0).
  - reflexivity.
  - reflexivity.
  - reflexivity.
  - discriminate.
Defined.
End HideProperties.

(** ** The spawn tick *)

Section SpawnProperties.
Implicit Types (st : State) (a : HoleArray).




End SpawnProperties.

(** ** Reachable states *)

Section ReachableProperties.
Implicit Types (st : State) (i : Z).

Lemma reachable_run st evs st' :
  reachable st → run st evs = Some st' → reachable st'.
Proof.
  intros [evs0 H0] Hrun. exists (evs0 ++ evs).
  revert H0. generalize initial. induction evs0 as [|ev evs0 IH]; intros s0; simpl.
  - by intros [= ->].
  - destruct (step s0 ev); [apply IH | done].
Qed.

Lemma cell_step_refl (c : HoleContent) : cell_step c c.
Proof. by left. Qed.

Lemma cell_step_empty (c : HoleContent) : cell_step c empty.
Proof. destruct c; [by left | right; right; auto ..]. Qed.

(** Cell [i] along a write of ['empty'] somewhere in the grid. *)
Lemma cell_step_clear (a : HoleArray) i j (c c' : HoleContent) :
  is_array_index i = true →
  arr_get a i = Some c →
  arr_get (arr_set (spread a) j empty) i = Some c' →
  cell_step c c'.
Proof.
  intros Hi Hc Hc'. destruct (decide (j = i)) as [->|Hne].
  - rewrite arr_get_set_eq in Hc'. injection Hc' as <-. apply cell_step_empty.
  - rewrite arr_get_set_ne, arr_get_spread in Hc' by done.
    assert (c = c') as -> by congruence. apply cell_step_refl.
Qed.

(** One step of the event loop, seen from one cell. *)
Lemma step_cell st ev st' i (c c' : HoleContent) :
  wf st → step st ev = Some st' →
  0 ≤ i < Z.of_nat GRID_SIZE →
  arr_get (holeContents st) i = Some c →
  arr_get (holeContents st') i = Some c' →
  cell_step c c'.
Proof.
  intros Hwf Hstep Hi Hc Hc'.
  assert (is_array_index i = true) as Hidx
    by (apply is_array_index_spec; unfold GRID_SIZE in *; lia).
  assert (∀ a, arr_get a i = Some c' → a = emptyGrid → cell_step c c') as Hreset.
  { intros a Ha ->. unfold arr_get in Ha. rewrite Hidx in Ha.
    unfold emptyGrid, cells in Ha.
    rewrite lookup_replicate_2 in Ha by lia.
    injection Ha as <-. apply cell_step_empty. }
  destruct ev as [|index|id r1 r2].
  - destruct (isActive st) eqn:Hact.
    { unfold step, handle in Hstep. by rewrite Hact in Hstep. }
    rewrite step_Start in Hstep by done. injection Hstep as <-.
    by eapply Hreset.
  - unfold step, handle in Hstep. destruct (_ && _); [|done].
    rewrite settle_same_deps in Hstep by (by rewrite whackItem_timerDeps).
    injection Hstep as <-. revert Hc'. unfold whackItem, whackItem_of.
    destruct (bool_decide _ || _).
    + intros Hc'. assert (c = c') as -> by congruence. apply cell_step_refl.
    + intros Hc'. eapply (cell_step_clear _ i index); [done..|].
      by repeat case_bool_decide.
  - destruct (timers st !! id) as [[| |k content]|] eqn:Hid.
    + pose proof (wf_active_of_timer st id _ Hwf Hid) as Hact.
      destruct (decide (1 < timeLeft st)).
      * rewrite step_clock_next in Hstep by done. injection Hstep as <-.
        simpl in Hc'. assert (c = c') as -> by congruence. apply cell_step_refl.
      * rewrite step_clock_expiry in Hstep by (done || lia).
        injection Hstep as <-. by eapply Hreset.
    + unfold step, handle in Hstep. rewrite Hid in Hstep.
      destruct (is_draw r1) eqn:Hr1; [|done].
      destruct (is_draw r2) eqn:Hr2; [|done]. simpl in Hstep.
      destruct (popTick r1 r2 st) as [st1|] eqn:Hpop; [|done].
      rewrite settle_same_deps in Hstep
        by (by rewrite (popTick_timerDeps _ _ _ _ Hpop)).
      injection Hstep as <-.
      destruct (emptyHolesIndexes (holeContents st)) eqn:He.
      { rewrite popTick_full in Hpop by done. injection Hpop as <-.
        assert (c = c') as -> by congruence. apply cell_step_refl. }
      destruct (popTick_spawn st r1 r2 Hr1) as (k & _ & Hk & Heq);
        [by rewrite He|].
      rewrite Heq in Hpop. injection Hpop as <-. simpl in Hc'.
      destruct (decide (k = i)) as [->|Hne].
      * rewrite arr_get_set_eq in Hc'. injection Hc' as <-.
        apply elem_of_emptyHolesIndexes in Hk as [_ Hk].
        unfold arr_get in Hc. rewrite Hidx, Hk in Hc. injection Hc as <-.
        right. left. split; [done|].
        destruct (randomContent_spec r2) as [[_ ->]|[_ ->]]; auto.
      * rewrite arr_get_set_ne, arr_get_spread in Hc' by done.
        assert (c = c') as -> by congruence. apply cell_step_refl.
    + rewrite (step_hide _ _ _ _ _ _ Hid) in Hstep. injection Hstep as <-.
      revert Hc'. unfold hideHole. simpl. case_bool_decide.
      * by apply cell_step_clear.
      * rewrite arr_get_spread by done. intros Hc'.
        assert (c = c') as -> by congruence. apply cell_step_refl.
    + unfold step, handle in Hstep. by rewrite Hid in Hstep.
Qed.

(** C6: in every reachable state each of the nine cells holds one of
    ['empty'], ['mole'], ['bomb'], and along any step of the event loop
    a cell stays as it is, goes from empty to mole or bomb, or goes
    from mole or bomb to empty; it never goes from mole to bomb or from
    bomb to mole. *)
Theorem cells_pass_through_empty st :
  reachable st →
  (∀ i, 0 ≤ i < Z.of_nat GRID_SIZE →
        ∃ c, arr_get (holeContents st) i = Some c) ∧
  (∀ ev st' i, step st ev = Some st' → 0 ≤ i < Z.of_nat GRID_SIZE →
     ∃ c c', arr_get (holeContents st) i = Some c ∧
             arr_get (holeContents st') i = Some c' ∧
             cell_step c c' ∧
             ¬ (c = mole ∧ c' = bomb) ∧ ¬ (c = bomb ∧ c' = mole)).
Proof.
  intros Hreach. pose proof (reachable_wf st Hreach) as Hwf.
  split.
  - intros i Hi. apply grid_ok_get; [apply Hwf | done].
  - intros ev st' i Hstep Hi.
    pose proof (wf_step st ev st' Hwf Hstep) as Hwf'.
    destruct (grid_ok_get (holeContents st) i) as [c Hc]; [apply Hwf|done|].
    destruct (grid_ok_get (holeContents st') i) as [c' Hc']; [apply Hwf'|done|].
    exists c, c'. split; [done|]. split; [done|].
    pose proof (step_cell st ev st' i c c' Hwf Hstep Hi Hc Hc') as Hcs.
    split; [done|].
    unfold cell_step in Hcs.
    split; intros [-> ->];
      destruct Hcs as [?|[[? [?|?]]|[[?|?] ?]]]; discriminate.
Qed.

Lemma reachable_moleUp : reachable moleUp.
Proof. exists [Start; popMole]. vm_compute. reflexivity. Defined.

(** C6 on a running game with a mole in hole 0, whacked: hole 0 goes
    from mole to empty. *)
Lemma cells_pass_through_empty_witness :
  ∃ c c', arr_get (holeContents moleUp) 0 = Some c ∧
          arr_get (holeContents (whackItem 0 moleUp)) 0 = Some c' ∧
          cell_step c c' ∧
          ¬ (c = mole ∧ c' = bomb) ∧ ¬ (c = bomb ∧ c' = mole).
Proof.
  destruct (cells_pass_through_empty moleUp reachable_moleUp) as [_ H].
  apply (H (Whack 0) (whackItem 0 moleUp) 0); [reflexivity | by vm_compute].
Defined.

Lemma reachable_bombUp : reachable bombUp.
Proof. exists [Start; popBomb]. vm_compute. reflexivity. Defined.


Lemma foldl_whackItem_timerDeps st (idxs : list Z) :
  timerDeps (foldl (λ s index, whackItem index s) st idxs) = timerDeps st.
Proof.
  revert st. induction idxs as [|index idxs IH]; intros st; simpl; [done|].
  by rewrite IH, whackItem_timerDeps.
Qed.

Lemma run_Whack_timerDeps st (idxs : list Z) st' :
  run st (map Whack idxs) = Some st' → timerDeps st' = timerDeps st.
Proof.
  revert st. induction idxs as [|index idxs IH]; intros st; simpl.
  - by intros [= <-].
  - unfold step at 1, handle. destruct (_ && _); [|done].
    rewrite settle_same_deps by (by rewrite whackItem_timerDeps).
    intros Hrun. by rewrite (IH _ Hrun), whackItem_timerDeps.
Qed.

(** A step that ends a running session is the clock firing. *)
Lemma step_ends st ev st' :
  wf st → step st ev = Some st' → isActive st = true → isActive st' = false →
  ∃ id r1 r2, ev = Fire id r1 r2 ∧ timers st !! id = Some ClockTick ∧
              timeLeft st = 1 ∧ timeLeft st' = 0 ∧
              gameOverReason st' = Some reason_time.
Proof.
  intros Hwf Hstep Hact Hend.
  destruct ev as [|index|id r1 r2].
  - unfold step, handle in Hstep. by rewrite Hact in Hstep.
  - unfold step, handle in Hstep. destruct (_ && _); [|done].
    rewrite settle_same_deps in Hstep by (by rewrite whackItem_timerDeps).
    injection Hstep as <-.
    pose proof (whackItem_timerDeps st index) as [= Ha _ _]. congruence.
  - exists id, r1, r2. split; [done|].
    destruct (timers st !! id) as [[| |k content]|] eqn:Hid.
    + split; [done|].
      destruct (wf_running st Hwf Hact) as (_ & Hpos & _).
      destruct (decide (1 < timeLeft st)).
      * rewrite step_clock_next in Hstep by done. by injection Hstep as <-.
      * rewrite step_clock_expiry in Hstep by (done || lia).
        injection Hstep as <-. simpl. repeat split; lia.
    + unfold step, handle in Hstep. rewrite Hid in Hstep.
      destruct (is_draw r1 && is_draw r2); [|done].
      destruct (popTick r1 r2 st) as [st1|] eqn:Hpop; [|done].
      pose proof (popTick_timerDeps _ _ _ _ Hpop) as Hd.
      rewrite settle_same_deps in Hstep by done.
      injection Hstep as <-. injection Hd as Ha _ _. congruence.
    + rewrite (step_hide _ _ _ _ _ _ Hid) in Hstep. injection Hstep as <-.
      simpl in Hend. congruence.
    + unfold step, handle in Hstep. by rewrite Hid in Hstep.
Qed.

(** C8: in every reachable state the end cause is none or time; no
    sequence of whacks, on bombs or moles, changes the running flag or
    the end cause, whether the handler is called directly or through
    the event loop; and a step that takes a running session to a
    stopped one is the clock's timeout firing with one second left, with
    end cause time. *)
Theorem only_the_clock_ends st :
  reachable st →
  (gameOverReason st = None ∨ gameOverReason st = Some reason_time) ∧
  (∀ idxs : list Z,
     isActive (foldl (λ s index, whackItem index s) st idxs) = isActive st ∧
     gameOverReason (foldl (λ s index, whackItem index s) st idxs)
       = gameOverReason st) ∧
  (∀ (idxs : list Z) st', run st (map Whack idxs) = Some st' →
     isActive st' = isActive st ∧ gameOverReason st' = gameOverReason st) ∧
  (∀ ev st', step st ev = Some st' →
     isActive st = true → isActive st' = false →
     ∃ id r1 r2, ev = Fire id r1 r2 ∧ timers st !! id = Some ClockTick ∧
                 timeLeft st = 1 ∧ timeLeft st' = 0 ∧
                 gameOverReason st' = Some reason_time).
Proof.
  intros Hreach. pose proof (reachable_wf st Hreach) as Hwf.
  split; [apply Hwf|]. split; [|split].
  - intros idxs. pose proof (foldl_whackItem_timerDeps st idxs) as [= Ha _ Hr].
    by split.
  - intros idxs st' Hrun.
    pose proof (run_Whack_timerDeps st idxs st' Hrun) as [= Ha _ Hr].
    by split.
  - intros ev st'. by apply step_ends.
Qed.

(** C8 on a running game with a bomb in hole 0: after the bomb is
    whacked the session is still running and has no end cause. *)
Lemma only_the_clock_ends_witness :
  (isActive (whackItem 0 bombUp) = true ∧
   gameOverReason (whackItem 0 bombUp) = None) ∧
  score (whackItem 0 bombUp) = -10.
Proof.
  split; [|reflexivity].
  destruct (only_the_clock_ends bombUp reachable_bombUp) as (_ & H & _).
  exact (H [0]).
Defined.



End ReachableProperties.

(** ** Whole games *)

(** Start, a mole comes up in hole 3, the player whacks it. *)
Example game_mole_in_hole_3 :
  ∃ st, run initial [Start; Fire 2 (3 # 9) (1 # 2); Whack 3] = Some st ∧
        score st = 10 ∧ arr_get (holeContents st) 3 = Some empty.
Proof. eexists. split; [by vm_compute|]. by vm_compute. Qed.

(** Start, a bomb comes up in hole 5, the player whacks it. *)
Example game_bomb_in_hole_5 :
  ∃ st, run initial [Start; Fire 2 (5 # 9) (1 # 10); Whack 5] = Some st ∧
        score st = -10 ∧ isActive st = true.
Proof. eexists. split; [by vm_compute|]. by vm_compute. Qed.

(** Start and sixty clock ticks, no whack. *)
Example game_sixty_ticks :
  ∃ st, run initial (lastSecondEvents ++ [Fire 61 0 0]) = Some st ∧
        isActive st = false ∧ gameOverReason st = Some reason_time ∧
        score st = 0 ∧ timeLeft st = 0.
Proof. eexists. split; [by vm_compute|]. by vm_compute. Qed.

(** ** Steps, case by case *)

Section Shapes.
Implicit Types (st : State) (i : Z) (id : nat).

Lemma step_shape_of st ev st' :
  wf st → step st ev = Some st' → step_shape st ev st'.
Proof.
  intros Hwf Hstep. destruct ev as [|index|id r1 r2].
  - destruct (isActive st) eqn:Hact.
    { unfold step, handle in Hstep. by rewrite Hact in Hstep. }
    rewrite step_Start in Hstep by done. injection Hstep as <-.
    by constructor.
  - unfold step, handle in Hstep.
    destruct ((0 <=? index) && _) eqn:Hi; [|done].
    apply andb_true_iff in Hi as [H0 H1].
    rewrite settle_same_deps in Hstep by (by rewrite whackItem_timerDeps).
    injection Hstep as <-. constructor.
    destruct (wf_grid st Hwf) as (Hl & _). rewrite Hl in H1. lia.
  - destruct (timers st !! id) as [[| |k content]|] eqn:Hid.
    + pose proof (wf_active_of_timer st id _ Hwf Hid) as Hact.
      destruct (wf_running st Hwf Hact) as (_ & Hpos & _).
      destruct (decide (1 < timeLeft st)).
      * rewrite step_clock_next in Hstep by done. injection Hstep as <-.
        by constructor.
      * rewrite step_clock_expiry in Hstep by (done || lia).
        injection Hstep as <-.
        assert (timeLeft st = 1) as Htl by lia. rewrite Htl. simpl.
        by constructor.
    + pose proof (wf_active_of_timer st id _ Hwf Hid) as Hact.
      unfold step, handle in Hstep. rewrite Hid in Hstep.
      destruct (is_draw r1) eqn:Hr1; [|done].
      destruct (is_draw r2) eqn:Hr2; [|done]. simpl in Hstep.
      destruct (popTick r1 r2 st) as [st1|] eqn:Hpop; [|done].
      rewrite settle_same_deps in Hstep
        by (by rewrite (popTick_timerDeps _ _ _ _ Hpop)).
      injection Hstep as <-.
      destruct (emptyHolesIndexes (holeContents st)) eqn:He.
      { rewrite popTick_full in Hpop by done. injection Hpop as <-.
        by constructor. }
      destruct (popTick_spawn st r1 r2 Hr1) as (k & Hnth & Hk & Heq);
        [by rewrite He|].
      rewrite Heq in Hpop. injection Hpop as <-.
      rewrite He in Hnth, Hk. constructor; by rewrite ?He.
    + pose proof (wf_active_of_timer st id _ Hwf Hid) as Hact.
      rewrite (step_hide _ _ _ _ _ _ Hid) in Hstep. injection Hstep as <-.
      by constructor.
    + unfold step, handle in Hstep. by rewrite Hid in Hstep.
Qed.

(** Induction over the reachable states, with [wf] at hand. *)
Lemma reachable_ind (P : State → Prop) :
  P initial →
  (∀ st ev st', wf st → P st → step_shape st ev st' → P st') →
  ∀ st, reachable st → P st.
Proof.
  intros Hinit Hstep st [evs Hrun].
  assert (∀ s, wf s → P s → run s evs = Some st → P st) as Hgen.
  { clear Hrun. induction evs as [|ev evs IH]; intros s Hwf Hs Hrun; simpl in Hrun.
    - by injection Hrun as <-.
    - destruct (step s ev) as [s1|] eqn:Hs1; [|done].
      apply (IH s1); [by eapply wf_step | | done].
      eapply Hstep; [done..|]. by apply step_shape_of. }
  by apply (Hgen initial); [apply wf_initial| |].
Qed.
End Shapes.

(** ** The session, from start to end *)

Section Session.
Implicit Types (st : State) (i : Z) (id : nat).








(** Letting the clock fire until the time is up, from a well-formed
    running state. *)
Lemma clock_runs_out_wf (n : nat) st :
  wf st → isActive st = true → timeLeft st = Z.of_nat (S n) →
  ∃ evs st', length evs = S n ∧ run st evs = Some st' ∧
    isActive st' = false ∧ gameOverReason st' = Some reason_time ∧
    timeLeft st' = 0 ∧ score st' = score st.
Proof.
  revert st. induction n as [|n IH]; intros st Hwf Hact Htl;
    destruct (wf_running st Hwf Hact) as (_ & _ & c & p & _ & _ & Hc & _).
  - exists [Fire c 0 0]. eexists. split; [done|]. simpl.
    rewrite step_clock_expiry by (done || lia). split; [done|].
    simpl. repeat split. lia.
  - pose proof (step_clock_next st c 0 0 Hwf Hact Hc) as Hstep.
    rewrite Htl in Hstep. specialize (Hstep ltac:(lia)).
    destruct (IH _ (wf_step _ _ _ Hwf Hstep)) as (evs & st' & Hlen & Hrun & Hres);
      [done | simpl; lia |].
    exists (Fire c 0 0 :: evs), st'. split; [simpl; lia|].
    simpl. rewrite Hstep. by split.
Qed.

(** X4: a running session can always be played out: from any reachable
    running state, as many clock firings as there are seconds left, and
    nothing else, end the session with cause time, 0 seconds and the
    score it had. *)
Theorem clock_runs_out st :
  reachable st → isActive st = true →
  ∃ evs st', Z.of_nat (length evs) = timeLeft st ∧ run st evs = Some st' ∧
    isActive st' = false ∧ gameOverReason st' = Some reason_time ∧
    timeLeft st' = 0 ∧ score st' = score st.
Proof.
  intros Hreach Hact. pose proof (reachable_wf st Hreach) as Hwf.
  destruct (wf_running st Hwf Hact) as (_ & Hpos & _).
  destruct (clock_runs_out_wf (Z.to_nat (timeLeft st) - 1) st Hwf Hact)
    as (evs & st' & Hlen & Hres); [lia|].
  exists evs, st'. split; [lia | done].
Qed.

Lemma clock_runs_out_witness :
  ∃ evs st', Z.of_nat (length evs) = timeLeft bombUp ∧
    run bombUp evs = Some st' ∧
    isActive st' = false ∧ gameOverReason st' = Some reason_time ∧
    timeLeft st' = 0 ∧ score st' = score bombUp.
Proof. apply (clock_runs_out bombUp reachable_bombUp). reflexivity. Defined.

(** X5: only two things change the time left: the start button sets it
    to 60 and a firing of the clock timeout takes exactly one second
    off.  Whacks, spawns and hides leave it alone. *)
Theorem only_clock_and_start_change_time st ev st' :
  reachable st → step st ev = Some st' → timeLeft st' ≠ timeLeft st →
  (ev = Start ∧ timeLeft st' = GAME_DURATION) ∨
  (∃ id r1 r2, ev = Fire id r1 r2 ∧ timers st !! id = Some ClockTick ∧
               timeLeft st' = timeLeft st - 1).
Proof.
  intros Hreach Hstep Hne. pose proof (reachable_wf st Hreach) as Hwf.
  destruct (step_shape_of st ev st' Hwf Hstep)
    as [Hact|index Hi|id r1 r2 Hact Hid Hlt|id r1 r2 Hact Hid Htl
        |id r1 r2 Hact Hid He|id r1 r2 k Hact Hid Hr1 Hr2 Hnth Hk
        |id r1 r2 i c Hact Hid]; simpl in *; try done.
  - by left.
  - pose proof (whackItem_timerDeps st index) as [= _ Ht _]. congruence.
  - right. by exists id, r1, r2.
  - right. exists id, r1, r2. repeat split; [done|lia].
Qed.

Lemma only_clock_and_start_change_time_witness :
  (Fire 1 0 0 = Start ∧ timeLeft (default initial (step started (Fire 1 0 0))) = GAME_DURATION) ∨
  (∃ id r1 r2, Fire 1 0 0 = Fire id r1 r2 ∧
               timers started !! id = Some ClockTick ∧
               timeLeft (default initial (step started (Fire 1 0 0)))
               = timeLeft started - 1).
Proof.
  apply (only_clock_and_start_change_time started (Fire 1 0 0)).
  - exists [Start]. vm_compute. reflexivity.
  - vm_compute. reflexivity.
  - by vm_compute.
Defined.


End Session.

(** ** Hide timeouts and their handles *)

Section Handles.
Implicit Types (st : State) (i : Z) (id : nat).


Lemma arr_get_spread_Some (a : HoleArray) i (c : HoleContent) :
  arr_get (spread a) i = Some c → arr_get a i = Some c.
Proof.
  unfold arr_get, spread, cells, named.
  destruct (is_array_index i); [done | by rewrite lookup_empty].
Qed.




(** The handles kept in [moleTimeouts] were given out for hide
    timeouts: each is either no longer pending or still a hide
    timeout. *)
Lemma moleTimeouts_are_hides st :
  reachable st →
  ∀ id, id ∈ moleTimeouts st →
    (id < nextTimer st)%nat ∧
    (timers st !! id = None ∨ ∃ i c, timers st !! id = Some (HideHole i c)).
Proof.
  revert st.
  apply (reachable_ind (λ st, ∀ id, id ∈ moleTimeouts st →
           (id < nextTimer st)%nat ∧
           (timers st !! id = None ∨
            ∃ i c, timers st !! id = Some (HideHole i c)))).
  - intros id Hin. by apply elem_of_nil in Hin.
  - intros st ev st' Hwf HP Hshape.
    destruct Hshape as [Hact|index Hi|id r1 r2 Hact Hid Hlt|id r1 r2 Hact Hid Htl
                        |id r1 r2 Hact Hid He|id r1 r2 k Hact Hid Hr1 Hr2 Hnth Hk
                        |id r1 r2 k c0 Hact Hid]; simpl; intros id' Hin.
    + by apply elem_of_nil in Hin.
    + assert (moleTimeouts (whackItem index st) = moleTimeouts st ∧
              timers (whackItem index st) = timers st ∧
              nextTimer (whackItem index st) = nextTimer st) as (Hm & Ht & Hn).
      { unfold whackItem, whackItem_of.
        destruct (bool_decide _ || _); [done|]. by repeat case_bool_decide. }
      rewrite Hm in Hin. rewrite Ht, Hn. by apply HP.
    + destruct (HP id' Hin) as [Hlt' Hcase]. split; [lia|].
      rewrite lookup_insert_ne by lia.
      destruct (decide (id' = id)) as [->|Hne]; [left; by rewrite lookup_delete_eq|].
      by rewrite !lookup_delete_ne.
    + by apply elem_of_nil in Hin.
    + by apply HP.
    + apply elem_of_app in Hin as [Hin|Hin%list_elem_of_singleton].
      * destruct (HP id' Hin) as [Hlt' Hcase]. split; [lia|].
        by rewrite lookup_insert_ne by lia.
      * subst id'. split; [lia|]. right. eexists _, _. apply lookup_insert_eq.
    + destruct (HP id' Hin) as [Hlt' Hcase]. split; [done|].
      destruct (decide (id' = id)) as [->|Hne]; [left; apply lookup_delete_eq|].
      by rewrite lookup_delete_ne.
Qed.

(** X8: [moleTimeouts.current.forEach(clearTimeout)] cancels every
    pending hide timeout and nothing else: in a reachable state the
    clock timeout and the spawn interval are still pending afterwards,
    and no hide timeout is. *)
Theorem clearMoleTimeouts_cancels_hides_only st id :
  reachable st →
  timers (clearMoleTimeouts st) !! id =
    match timers st !! id with
    | Some (HideHole _ _) => None
    | other => other
    end.
Proof.
  intros Hreach. pose proof (reachable_wf st Hreach) as Hwf.
  rewrite clearMoleTimeouts_eq. simpl. rewrite lookup_deleteAll.
  destruct (decide (id ∈ moleTimeouts st)) as [Hin|Hin].
  - destruct (moleTimeouts_are_hides st Hreach id Hin) as [_ [->|(i & c & ->)]]; done.
  - destruct (timers st !! id) as [[| |i c]|] eqn:Hid; try done.
    exfalso. apply Hin. by eapply wf_hides.
Qed.

Lemma clearMoleTimeouts_cancels_hides_only_witness :
  timers (clearMoleTimeouts bombUp) !! 3%nat = None ∧
  timers (clearMoleTimeouts bombUp) !! 1%nat = Some ClockTick ∧
  timers (clearMoleTimeouts bombUp) !! 2%nat = Some PopTick.
Proof.
  rewrite !(clearMoleTimeouts_cancels_hides_only bombUp _ reachable_bombUp).
  by vm_compute.
Defined.

(** X9: unmounting leaves no timer behind.  From every reachable
    state, the effect clean-ups cancel every pending timeout and
    interval, and change nothing that is rendered. *)
Theorem unmount_cancels_all_timers st :
  reachable st →
  timers (unmount st) = ∅ ∧ shown (unmount st) = shown st.
Proof.
  intros Hreach. pose proof (reachable_wf st Hreach) as Hwf.
  pose proof (wf_hides st Hwf) as Hh.
  pose proof (wf_running st Hwf) as Hrun.
  pose proof (wf_idle st Hwf) as Hidle. clear Hreach Hwf.
  unfold unmount, poppingCleanup, timerCleanup.
  rewrite clearMoleTimeouts_eq.
  destruct st as [sc tl act grid reason mt tid pid tm nt]. simpl in *.
  destruct act.
  - destruct Hrun as (_ & _ & c & p & -> & -> & Htc & Htp & Huc & Hup); [done|].
    st_proj. rewrite clearMoleTimeouts_eq. st_proj.
    split; [|done].
    apply map_eq. intros k. rewrite lookup_empty.
    rewrite lookup_deleteAll. case_decide; [done|].
    destruct (decide (k = p)) as [->|Hkp]; [apply lookup_delete_eq|].
    rewrite lookup_delete_ne by done.
    destruct (decide (k = c)) as [->|Hkc]; [apply lookup_delete_eq|].
    rewrite lookup_delete_ne by done.
    rewrite lookup_deleteAll. case_decide; [done|].
    destruct (tm !! k) as [[| |i content]|] eqn:Hk; [| | |done].
    + by apply Huc in Hk.
    + by apply Hup in Hk.
    + by apply Hh in Hk.
  - destruct Hidle as (-> & -> & -> & -> & _); [done|]. by split.
Qed.

Lemma unmount_cancels_all_timers_witness :
  timers (unmount bombUp) = ∅ ∧ shown (unmount bombUp) = shown bombUp.
Proof. apply (unmount_cancels_all_timers bombUp reachable_bombUp). Defined.
End Handles.

(** ** Clicks *)

Section Clicks.
Implicit Types (st : State) (i j index : Z) (id : nat).

Lemma whackItem_get_other st i j :
  i ≠ j → is_array_index j = true →
  arr_get (holeContents (whackItem i st)) j = arr_get (holeContents st) j.
Proof.
  intros Hne Hj. unfold whackItem, whackItem_of.
  destruct (bool_decide _ || _); [done|].
  assert (arr_get (arr_set (spread (holeContents st)) i empty) j
          = arr_get (holeContents st) j) as Hg
    by (rewrite arr_get_set_ne by done; by apply arr_get_spread).
  by repeat case_bool_decide.
Qed.


Lemma whackItem_unless st index :
  whackItem index st = st ∨
  (isActive st = true ∧ arr_get (holeContents st) index ≠ Some empty).
Proof.
  destruct (decide (arr_get (holeContents st) index = Some empty)) as [He|He].
  { left. apply whackItem_guard. by left. }
  destruct (isActive st) eqn:Hact; [by right|].
  left. apply whackItem_guard. by right.
Qed.

(** X10: a second whack on the same cell does nothing: a double click
    scores once.  This holds for every state and every index. *)
Theorem whackItem_twice st index :
  whackItem index (whackItem index st) = whackItem index st.
Proof.
  destruct (whackItem_unless st index) as [Heq|[Hact Hne]];
    [by rewrite !Heq|].
  apply whackItem_guard. left. by apply whackItem_cell.
Qed.

(** X11: whacks on two different cells of the grid commute: the score
    and the grid do not depend on which of the two clicks came first. *)
Theorem whackItem_commute st i j :
  i ≠ j →
  0 ≤ i < Z.of_nat (length (cells (holeContents st))) →
  0 ≤ j < Z.of_nat (length (cells (holeContents st))) →
  Z.of_nat (length (cells (holeContents st))) ≤ 2 ^ 32 - 1 →
  whackItem i (whackItem j st) = whackItem j (whackItem i st).
Proof.
  intros Hne Hi Hj Hmax.
  assert (is_array_index i = true) as Hii by (apply is_array_index_spec; lia).
  assert (is_array_index j = true) as Hjj by (apply is_array_index_spec; lia).
  destruct (whackItem_unless st i) as [Hi0|[Hact Hci]].
  { rewrite Hi0. apply whackItem_guard.
    destruct (decide (arr_get (holeContents st) i = Some empty)) as [He|He].
    - left. by rewrite whackItem_get_other.
    - right. pose proof (whackItem_timerDeps st j) as [= -> _ _].
      destruct (isActive st) eqn:Hact; [|done].
      exfalso. rewrite whackItem_hit in Hi0 by done.
      apply (f_equal (λ s, arr_get (holeContents s) i)) in Hi0.
      simpl in Hi0. rewrite arr_get_set_eq in Hi0.
      destruct (arr_get (holeContents st) i) as [[]|]; simpl in Hi0; congruence. }
  destruct (whackItem_unless st j) as [Hj0|[_ Hcj]].
  { rewrite Hj0. symmetry. apply whackItem_guard.
    destruct (decide (arr_get (holeContents st) j = Some empty)) as [He|He].
    - left. by rewrite whackItem_get_other.
    - exfalso. rewrite whackItem_hit in Hj0 by done.
      apply (f_equal (λ s, arr_get (holeContents s) j)) in Hj0.
      simpl in Hj0. rewrite arr_get_set_eq in Hj0.
      destruct (arr_get (holeContents st) j) as [[]|]; simpl in Hj0; congruence. }
  assert (isActive (whackItem j st) = true) as Haj
    by (by pose proof (whackItem_timerDeps st j) as [= -> _ _]).
  assert (isActive (whackItem i st) = true) as Hai
    by (by pose proof (whackItem_timerDeps st i) as [= -> _ _]).
  rewrite (whackItem_hit (whackItem j st) i)
    by (done || by rewrite whackItem_get_other).
  rewrite (whackItem_hit (whackItem i st) j)
    by (done || by rewrite whackItem_get_other).
  rewrite !whackItem_get_other by done.
  rewrite (whackItem_hit st i), (whackItem_hit st j) by done.
  assert (arr_set (spread (arr_set (spread (holeContents st)) j empty)) i empty
          = arr_set (spread (arr_set (spread (holeContents st)) i empty)) j empty)
    as Hgrid.
  { rewrite (arr_set_in_range (spread (holeContents st)) j) by (simpl; lia).
    rewrite (arr_set_in_range (spread (holeContents st)) i) by (simpl; lia).
    rewrite !arr_set_in_range by (simpl; rewrite ?length_insert; lia).
    simpl. f_equal. apply list_insert_insert_ne. lia. }
  destruct st as [sc tl act grid reason mt tid pid tm nt]. simpl in *.
  destruct (arr_get grid i) as [[]|], (arr_get grid j) as [[]|];
    st_proj; rewrite Hgrid; f_equal; lia.
Qed.

Lemma whackItem_commute_witness :
  whackItem 0 (whackItem 5 moleUp) = whackItem 5 (whackItem 0 moleUp).
Proof.
  apply (whackItem_commute moleUp 0 5); by vm_compute.
Defined.


End Clicks.

(** ** The score and the number of spawns *)

Section ScoreBound.
Implicit Types (st : State) (i : Z) (id : nat).

(** Whether a cell counts as showing something. *)
Local Abbreviation shows x :=
  (match x with Some empty => 0%nat | _ => 1%nat end).

Lemma shows_decide (x : option HoleContent) :
  (if decide (x ≠ Some empty) then 1%nat else 0%nat) = shows x.
Proof.
  case_decide as Hx; by destruct x as [[| |]|].
Qed.

Lemma upCount_insert (l : list (option HoleContent)) (n : nat) x y :
  l !! n = Some y →
  (length (filter (λ content, content ≠ Some empty) (<[n := x]> l)) + shows y
   = length (filter (λ content, content ≠ Some empty) l) + shows x)%nat.
Proof.
  revert n. induction l as [|z l IH]; intros [|n] Hn; simpl in Hn; try done.
  - injection Hn as ->. simpl. rewrite !filter_cons.
    rewrite <- (shows_decide x), <- (shows_decide y).
    destruct (decide (x ≠ Some empty)), (decide (y ≠ Some empty)); simpl; lia.
  - simpl. rewrite !filter_cons. specialize (IH n Hn).
    destruct (decide (z ≠ Some empty)); simpl; lia.
Qed.

(** Writing a cell of the grid moves the count by what the cell showed
    and what it shows now. *)
Lemma upCount_arr_set (a : HoleArray) i (old new : HoleContent) :
  grid_ok a → arr_get a i = Some old →
  (upCount (arr_set (spread a) i new) + shows (Some old)
   = upCount a + shows (Some new))%nat.
Proof.
  intros Hok Hget.
  pose proof (grid_ok_get_range a i old Hok Hget) as Hi.
  destruct Hok as (Hlen & Hdef & _).
  rewrite arr_set_in_range by (simpl; rewrite ?Hlen; unfold GRID_SIZE in *; lia).
  unfold upCount, spread. cbn [cells].
  apply (upCount_insert (cells a) (Z.to_nat i) (Some new) (Some old)).
  unfold arr_get in Hget.
  assert (is_array_index i = true) as Hidx
    by (apply is_array_index_spec; unfold GRID_SIZE in *; lia).
  rewrite Hidx in Hget.
  destruct (cells a !! Z.to_nat i) as [[c|]|]; simpl in Hget; congruence.
Qed.

Lemma upCount_spread (a : HoleArray) : upCount (spread a) = upCount a.
Proof. done. Qed.

(** X13: while a session runs, the absolute value of the score plus
    ten times the number of items now showing is at most ten times the
    number of items spawned so far in this session (the length of
    [moleTimeouts]): every item scores at most once. *)
Theorem score_bounded_by_spawns st :
  reachable st → isActive st = true →
  Z.abs (score st) + 10 * Z.of_nat (upCount (holeContents st))
  ≤ 10 * Z.of_nat (length (moleTimeouts st)).
Proof.
  revert st.
  apply (reachable_ind (λ st, isActive st = true →
           Z.abs (score st) + 10 * Z.of_nat (upCount (holeContents st))
           ≤ 10 * Z.of_nat (length (moleTimeouts st)))).
  - done.
  - intros st ev st' Hwf HP Hshape.
    pose proof (wf_grid st Hwf) as Hgrid.
    destruct Hshape as [Hact|index Hi|id r1 r2 Hact Hid Hlt|id r1 r2 Hact Hid Htl
                        |id r1 r2 Hact Hid He|id r1 r2 k Hact Hid Hr1 Hr2 Hnth Hk
                        |id r1 r2 k c0 Hact Hid]; simpl; intros Hact'.
    + by vm_compute.
    + destruct (whackItem_unless st index) as [Heq|[Hact Hne]].
      { rewrite Heq in *. by apply HP. }
      specialize (HP Hact).
      destruct (grid_ok_get _ index Hgrid Hi) as [c Hc].
      pose proof (upCount_arr_set _ index c empty Hgrid Hc) as Hcount.
      assert (moleTimeouts (whackItem index st) = moleTimeouts st) as ->.
      { unfold whackItem, whackItem_of.
        destruct (bool_decide _ || _); [done|]. by repeat case_bool_decide. }
      rewrite whackItem_hit by done. rewrite Hc.
      destruct c; [done| |]; simpl; lia.
    + by apply HP.
    + done.
    + by apply HP.
    + specialize (HP Hact).
      apply elem_of_emptyHolesIndexes in Hk as [Hk0 Hk].
      assert (arr_get (holeContents st) k = Some empty) as Hc.
      { unfold arr_get. pose proof (lookup_lt_Some _ _ _ Hk) as Hlt.
        destruct Hgrid as (Hlen & _). rewrite Hlen in Hlt.
        assert (is_array_index k = true) as ->
          by (apply is_array_index_spec; unfold GRID_SIZE in *; lia).
        by rewrite Hk. }
      pose proof (upCount_arr_set _ k empty (randomContent r2) Hgrid Hc) as Hcount.
      pose proof (randomContent_not_empty r2) as Hrc.
      rewrite length_app. simpl.
      destruct (randomContent r2); [done|lia..].
    + specialize (HP Hact). case_bool_decide as Hg; [|by rewrite upCount_spread].
      apply arr_get_spread_Some in Hg.
      pose proof (upCount_arr_set _ k c0 empty Hgrid Hg) as Hcount.
      destruct c0; lia.
Qed.

Lemma score_bounded_by_spawns_witness :
  Z.abs (score bombUp) + 10 * Z.of_nat (upCount (holeContents bombUp))
  ≤ 10 * Z.of_nat (length (moleTimeouts bombUp)).
Proof. apply (score_bounded_by_spawns bombUp reachable_bombUp). reflexivity. Defined.

(** X14: in every reachable state the score is a multiple of 10. *)
Theorem score_multiple_of_ten st :
  reachable st → (10 | score st).
Proof.
  revert st. apply (reachable_ind (λ st, (10 | score st))).
  - by exists 0.
  - intros st ev st' Hwf HP Hshape.
    destruct Hshape as [Hact|index Hi|id r1 r2 Hact Hid Hlt|id r1 r2 Hact Hid Htl
                        |id r1 r2 Hact Hid He|id r1 r2 k Hact Hid Hr1 Hr2 Hnth Hk
                        |id r1 r2 k c0 Hact Hid]; simpl; try done.
    + by exists 0.
    + destruct (whackItem_unless st index) as [->|[Hact Hne]]; [done|].
      rewrite whackItem_hit by done. destruct HP as [q Hq].
      destruct (arr_get (holeContents st) index) as [[]|]; simpl;
        [by exists q | exists (q + 1); lia | exists (q - 1); lia | by exists q].
Qed.

Lemma score_multiple_of_ten_witness : (10 | score (whackItem 0 bombUp)).
Proof.
  apply (score_multiple_of_ten (whackItem 0 bombUp)).
  exists [Start; popBomb; Whack 0]. vm_compute. reflexivity.
Defined.
End ScoreBound.

(** ** Which draw picks which hole *)

Section Draws.
Implicit Types (st : State) (i : Z) (id : nat).



End Draws.

(** ** What the player sees *)

Section Rendering.
Implicit Types (st : State) (i : Z) (id : nat).

Lemma grid_ok_contents (a : HoleArray) :
  grid_ok a →
  ∃ contents, mapM id (cells a) = Some contents ∧
    length contents = GRID_SIZE ∧
    ∀ (n : nat) c, arr_get a (Z.of_nat n) = Some c → contents !! n = Some c.
Proof.
  intros (Hlen & Hdef & Hnamed).
  destruct (mapM_is_Some_2 id (cells a)) as [contents Hc].
  { apply Forall_lookup. intros n x Hx.
    destruct (Hdef n) as [c Hn]; [rewrite <- Hlen; by eapply lookup_lt_Some|].
    rewrite Hx in Hn. injection Hn as ->. by eexists. }
  exists contents. split; [done|].
  split; [by rewrite <- (length_mapM _ _ _ Hc)|].
  intros n c Hget. unfold arr_get in Hget.
  destruct (is_array_index (Z.of_nat n));
    [|by rewrite Hnamed, lookup_empty in Hget].
  rewrite Nat2Z.id in Hget.
  destruct (cells a !! n) as [[c'|]|] eqn:Hn; simpl in Hget; try done.
  injection Hget as ->.
  apply mapM_Some_1 in Hc.
  destruct (Forall2_lookup_l _ _ _ _ _ Hc Hn) as (y & Hy & Heq).
  simpl in Heq. congruence.
Qed.

(** X16: what the end-of-game heading and the start button show, in
    every reachable state.  The state renders.  The button is disabled
    exactly while the session runs.  When the heading is rendered the
    session is stopped, the heading reads the fixed text followed by
    the score in decimal (the empty message of [getGameOverMessage] is
    never shown), and the button reads the text for playing again; when
    it is not rendered no game has ended since the last start and the
    button reads the text for starting. *)
Theorem render_end_of_game st :
  reachable st →
  ∃ v, render st = Some v ∧
    buttonDisabled v = isActive st ∧
    match finalScore v with
    | Some message =>
        isActive st = false ∧
        message = "게임 종료! 최종 점수: " +:+ pretty (score st) ∧
        buttonText v = "다시하기"
    | None => gameOverReason st = None ∧ buttonText v = "시작"
    end.
Proof.
  intros Hreach. pose proof (reachable_wf st Hreach) as Hwf.
  destruct (grid_ok_contents _ (wf_grid st Hwf)) as (contents & Hc & _).
  unfold render. rewrite Hc. simpl. eexists. split; [done|]. simpl.
  split; [done|]. unfold isGameEnded, getGameOverMessage.
  destruct (wf_reason st Hwf) as [Hr|Hr]; rewrite Hr; simpl; [done|].
  split; [|done].
  destruct (isActive st) eqn:Hact; [|done].
  destruct (wf_running st Hwf Hact) as [Hnone _]. congruence.
Qed.

Lemma render_end_of_game_witness :
  ∃ v, render bombUp = Some v ∧
    buttonDisabled v = isActive bombUp ∧
    match finalScore v with
    | Some message =>
        isActive bombUp = false ∧
        message = "게임 종료! 최종 점수: " +:+ pretty (score bombUp) ∧
        buttonText v = "다시하기"
    | None => gameOverReason bombUp = None ∧ buttonText v = "시작"
    end.
Proof. apply (render_end_of_game bombUp reachable_bombUp). Defined.

(** The label of a hole tells its content kind and its position. *)
Lemma ariaLabel_inj (c c' : HoleContent) (n n' : nat) :
  ariaLabel (renderHole c n) = ariaLabel (renderHole c' n') →
  c = c' ∧ n = n'.
Proof.
  unfold renderHole, ariaLabel.
  destruct c, c'; simpl; intros [= Hp]; try done;
    (split; [done|]); apply pretty_nat_inj in Hp; lia.
Qed.

(** X17: the nine holes, in every reachable state.  The state renders
    nine holes; the hole at index [n] is rendered from the content of
    cell [n] with position [n + 1]; it is marked pressed, and carries
    the class [up], exactly when the cell is not empty; and the labels
    of two holes agree only if content and position agree. *)
Theorem render_holes st :
  reachable st →
  ∃ v, render st = Some v ∧ length (holes v) = 9%nat ∧
    (∀ (n : nat) c, arr_get (holeContents st) (Z.of_nat n) = Some c →
       holes v !! n = Some (renderHole c n) ∧
       (ariaPressed (renderHole c n) = true ↔ c ≠ empty) ∧
       className (renderHole c n)
         = "hole " +:+ (if bool_decide (c = empty) then "" else "up")
           +:+ " " +:+ contentString c) ∧
    (∀ c c' (n n' : nat),
       ariaLabel (renderHole c n) = ariaLabel (renderHole c' n') →
       c = c' ∧ n = n').
Proof.
  intros Hreach. pose proof (reachable_wf st Hreach) as Hwf.
  destruct (grid_ok_contents _ (wf_grid st Hwf)) as (contents & Hc & Hlen & Hget).
  unfold render. rewrite Hc. simpl. eexists. split; [done|]. simpl.
  split; [by rewrite length_imap|]. split; [|apply ariaLabel_inj].
  intros n c Hn. split; [|split].
  - rewrite list_lookup_imap. by rewrite (Hget n c Hn).
  - unfold renderHole. simpl. by destruct c.
  - unfold renderHole. simpl. by destruct c.
Qed.

Lemma render_holes_witness :
  ∃ v, render bombUp = Some v ∧ length (holes v) = 9%nat ∧
    (∀ (n : nat) c, arr_get (holeContents bombUp) (Z.of_nat n) = Some c →
       holes v !! n = Some (renderHole c n) ∧
       (ariaPressed (renderHole c n) = true ↔ c ≠ empty) ∧
       className (renderHole c n)
         = "hole " +:+ (if bool_decide (c = empty) then "" else "up")
           +:+ " " +:+ contentString c) ∧
    (∀ c c' (n n' : nat),
       ariaLabel (renderHole c n) = ariaLabel (renderHole c' n') →
       c = c' ∧ n = n').
Proof. apply (render_holes bombUp reachable_bombUp). Defined.
End Rendering.

(** ** The music *)

Section Music.
Implicit Types (st : State) (au : Audio) (id : nat).







Lemma afterNotes_spec (k : nat) au :
  afterNotes k au =
    mkAudio (audioContext au) (musicIntervalRef au)
      (match k with
       | O => noteIndexRef au
       | S _ => (noteIndexRef au + k) mod 8
       end)
      (musicIntervals au) (nextInterval au).
Proof.
  induction k as [|k IH].
  - by destruct au.
  - change (afterNotes (S k) au) with ((musicNote (afterNotes k au)).2).
    rewrite IH. unfold musicNote. cbn [snd noteIndexRef audioContext
      musicIntervalRef musicIntervals nextInterval].
    f_equal. change (length melody) with 8%nat.
    destruct k as [|k]; [done|].
    rewrite Nat.Div0.add_mod_idemp_l. f_equal. lia.
Qed.

(** X19: the melody loops.  Starting from a note index below 8, the
    note interval's [k]-th next firing reads position
    [(index + k) mod 8] of the melody, so eight firings bring the index
    back; with the audio context running it starts an oscillator at
    that frequency unless the position is the rest (position 7), and
    with the context in any other state it starts none. *)
Theorem melody_loops (k : nat) au :
  (noteIndexRef au < 8)%nat →
  noteIndexRef (afterNotes k au) = ((noteIndexRef au + k) mod 8)%nat ∧
  afterNotes 8 au = au ∧
  (musicNote (afterNotes k au)).1 =
    (if bool_decide (audioContext au = Some running)
     then mjoin (melody !! ((noteIndexRef au + k) mod 8)%nat)
     else None) ∧
  ((musicNote (afterNotes k au)).1 = None ↔
   audioContext au ≠ Some running ∨ ((noteIndexRef au + k) mod 8 = 7)%nat).
Proof.
  intros Hlt.
  assert (noteIndexRef (afterNotes k au) = ((noteIndexRef au + k) mod 8)%nat)
    as Hidx.
  { rewrite afterNotes_spec. cbn [noteIndexRef]. destruct k; [|done].
    rewrite Nat.add_0_r. symmetry. by apply Nat.mod_small. }
  assert (audioContext (afterNotes k au) = audioContext au) as Hctx
    by (by rewrite afterNotes_spec).
  split; [done|]. split.
  { rewrite afterNotes_spec. destruct au as [ctx ref note set next].
    cbn [noteIndexRef audioContext musicIntervalRef musicIntervals
         nextInterval] in *.
    f_equal. replace (note + 8)%nat with (note + 1 * 8)%nat by lia.
    rewrite Nat.Div0.mod_add. by apply Nat.mod_small. }
  unfold musicNote. cbn [fst]. rewrite Hidx, Hctx.
  pose proof (Nat.mod_upper_bound (noteIndexRef au + k) 8 ltac:(lia)) as Hb.
  generalize dependent ((noteIndexRef au + k) mod 8)%nat. intros n _ Hb.
  assert (n = 0 ∨ n = 1 ∨ n = 2 ∨ n = 3 ∨ n = 4 ∨ n = 5 ∨ n = 6 ∨ n = 7)%nat
    as Hn by lia.
  case_bool_decide as Hrun.
  - destruct Hn as [-> | [-> | [-> | [-> | [-> | [-> | [-> | ->]]]]]]]; simpl;
      (split; [done|]);
      (split; [intros ?; first [done | by right] | intros [?|?]; done]).
  - destruct Hn as [-> | [-> | [-> | [-> | [-> | [-> | [-> | ->]]]]]]]; simpl;
      (split; [done|]); (split; [intros _; by left | done]).
Qed.

Lemma melody_loops_witness :
  noteIndexRef (afterNotes 5 playing.2) = ((noteIndexRef playing.2 + 5) mod 8)%nat ∧
  afterNotes 8 playing.2 = playing.2 ∧
  (musicNote (afterNotes 5 playing.2)).1 =
    (if bool_decide (audioContext playing.2 = Some running)
     then mjoin (melody !! ((noteIndexRef playing.2 + 5) mod 8)%nat)
     else None) ∧
  ((musicNote (afterNotes 5 playing.2)).1 = None ↔
   audioContext playing.2 ≠ Some running ∨
   ((noteIndexRef playing.2 + 5) mod 8 = 7)%nat).
Proof. apply (melody_loops 5 playing.2). vm_compute. lia. Defined.
End Music.
